(** * Hybrid memory / retrieval subsystem: a shallow embedding

    Embeds the algorithmic core of the repository
    ([03-hybrid-memory/knowledge_graph.py], [vector_search.py],
    [hybrid_retrieval.py]) and the simulated-failure helpers of the demo
    files, and proves the properties the specification states about them.

    Conventions.
    - Python [str] is [string]; Python [int] is [Z]; a [dict] keyed by
      strings and read only through [get]/[in] is a [gmap string _]; a
      [set] of strings is a [gset string]; a [dict] whose iteration order is
      observable is an association list in insertion order.
    - A method that can raise returns a [result]; a loop whose termination
      is not structural carries fuel and reports [OutOfFuel] explicitly. *)

From Stdlib Require Import ZArith QArith Lia.
From stdpp Require Import base option list gmap sets strings sorting.

#[local] Open Scope Z_scope.
#[local] Open Scope list_scope.
#[local] Open Scope stdpp_scope.

(* ===================================================================== *)
(** * knowledge_graph.py *)
(* ===================================================================== *)

Module KnowledgeGraph.

(** [class RelationType(Enum)].  Members of a plain [Enum] are truthy, so
    the test [if rel_type:] in [get_outgoing] only distinguishes [None]. *)
Inductive RelationType :=
| OWNS | DEPENDS_ON | DELAYED_BY
| AFFECTS | APPROVED_BY | ALLOCATED_TO
| REPORTS_TO | MEMBER_OF | WORKS_ON.

#[global] Instance RelationType_eq_dec : EqDecision RelationType.
Proof. solve_decision. Defined.

(** [@dataclass Entity]; the free-form [properties] dictionary and the two
    timestamps are carried by no operation below and are left out. *)
Record Entity := mkEntity {
  entity_id : string;
  entity_type : string;
  name : string
}.

(** [@dataclass Relationship] (same omission of [properties], [valid_from],
    [valid_to], which only [query_at_time] reads). *)
Record Relationship := mkRelationship {
  rel_id : string;
  source_id : string;
  target_id : string;
  rel_type : RelationType
}.

#[global] Instance Relationship_eq_dec : EqDecision Relationship.
Proof. solve_decision. Defined.

(** [class KnowledgeGraph]: the five attributes set by [__init__].  The
    three indexes are [defaultdict(list)]: a missing key reads as []. *)
Record KnowledgeGraph := mkGraph {
  _entities : gmap string Entity;
  _relationships : list Relationship;
  _outgoing : gmap string (list Relationship);
  _incoming : gmap string (list Relationship);
  _by_type : gmap string (list Entity)
}.

(** [KnowledgeGraph()] *)
Definition empty_graph : KnowledgeGraph :=
  mkGraph ∅ [] ∅ ∅ ∅.

(** [d[key].append(x)] on a [defaultdict(list)] *)
Definition dd_append {A} (d : gmap string (list A)) (key : string) (x : A)
  : gmap string (list A) :=
  <[key := default [] (d !! key) ++ [x]]> d.

Definition add_entity (g : KnowledgeGraph) (entity : Entity) : KnowledgeGraph :=
  mkGraph (<[entity_id entity := entity]> (_entities g))
          (_relationships g)
          (_outgoing g)
          (_incoming g)
          (dd_append (_by_type g) (entity_type entity) entity).

Definition add_relationship (g : KnowledgeGraph) (rel : Relationship)
  : KnowledgeGraph :=
  mkGraph (_entities g)
          (_relationships g ++ [rel])
          (dd_append (_outgoing g) (source_id rel) rel)
          (dd_append (_incoming g) (target_id rel) rel)
          (_by_type g).

Definition get_entity (g : KnowledgeGraph) (id : string) : option Entity :=
  _entities g !! id.

(** [[r for r in rels if r.rel_type == rel_type]] when a type is given *)
Definition filter_type (rt : option RelationType) (rels : list Relationship)
  : list Relationship :=
  match rt with
  | Some t => filter (λ r, rel_type r = t) rels
  | None => rels
  end.

Definition get_outgoing (g : KnowledgeGraph) (id : string)
    (rt : option RelationType) : list Relationship :=
  filter_type rt (default [] (_outgoing g !! id)).

Definition get_incoming (g : KnowledgeGraph) (id : string)
    (rt : option RelationType) : list Relationship :=
  filter_type rt (default [] (_incoming g !! id)).

(** A call of one of the two mutators, and a sequence of such calls run
    from left to right. *)
Inductive call :=
| AddEntity (e : Entity)
| AddRelationship (r : Relationship).

Definition run_call (g : KnowledgeGraph) (c : call) : KnowledgeGraph :=
  match c with
  | AddEntity e => add_entity g e
  | AddRelationship r => add_relationship g r
  end.

Definition run_calls (g : KnowledgeGraph) (cs : list call) : KnowledgeGraph :=
  fold_left run_call cs g.

(** The relationships handed to [add_relationship] by a call sequence, in
    call order (read off the calls, not off the graph). *)
Definition added (cs : list call) : list Relationship :=
  omap (λ c, match c with AddRelationship r => Some r | AddEntity _ => None end) cs.

(** The index invariant: each index list is the sub-list of
    [_relationships] with that end point. *)
Definition indexed (g : KnowledgeGraph) : Prop :=
  ∀ id,
    default [] (_outgoing g !! id)
      = filter (λ r, source_id r = id) (_relationships g) ∧
    default [] (_incoming g !! id)
      = filter (λ r, target_id r = id) (_relationships g).

(** ** traverse *)

(** [traverse(start_id, path_pattern, max_depth)].  [max_depth] is passed
    down as [max_depth - 1] and never read otherwise. *)
Fixpoint traverse (g : KnowledgeGraph) (start_id : string)
    (path_pattern : list RelationType) (max_depth : Z) {struct path_pattern}
  : list (list string) :=
  match path_pattern with
  | [] => [[start_id]]
  | current_rel_type :: remaining_pattern =>
    concat
      (map (λ rel,
              match remaining_pattern with
              | _ :: _ =>
                map (cons start_id)
                    (traverse g (target_id rel) remaining_pattern (max_depth - 1))
              | [] => [[start_id; target_id rel]]
              end)
           (get_outgoing g start_id (Some current_rel_type)))
  end.

(** The default [max_depth=10] of [traverse]. *)
Definition traverse_default_depth : Z := 10.

(** Specification side of [traverse], after the words of the claim: all
    sequences of [m] relationships of the graph ... *)
Fixpoint rel_sequences (rels : list Relationship) (m : nat)
  : list (list Relationship) :=
  match m with
  | O => [[]]
  | S m' => r ← rels; map (cons r) (rel_sequences rels m')
  end.

(** ... that start at [start], are linked end to end, and whose types
    spell the pattern. *)
Fixpoint follows (start : string) (pattern : list RelationType)
    (rs : list Relationship) : bool :=
  match pattern, rs with
  | [], [] => true
  | t :: pattern', r :: rs' =>
    bool_decide (source_id r = start) && bool_decide (rel_type r = t)
      && follows (target_id r) pattern' rs'
  | _, _ => false
  end.

Definition matching_sequences (g : KnowledgeGraph) (start : string)
    (pattern : list RelationType) : list (list Relationship) :=
  filter (λ rs, follows start pattern rs = true)
         (rel_sequences (_relationships g) (length pattern)).

(** The node sequence visited by a relationship sequence. *)
Definition nodes_of (start : string) (rs : list Relationship) : list string :=
  start :: map target_id rs.

(** Number of hops of a path given as a node list. *)
Definition hop_count (p : list string) : Z := Z.of_nat (length p) - 1.

(** ** shortest_path *)

(** Result of running a loop that carries fuel. *)
Inductive outcome (A : Type) :=
| OutOfFuel
| Returned (a : A).
Arguments OutOfFuel {A}.
Arguments Returned {A} a.

(** State of the inner [for rel in self.get_outgoing(current_id)] loop:
    either the [return path + [target_id]] was taken, or the loop ran to
    its end with the updated [visited] set and [queue]. *)
Inductive scan :=
| Found (p : list string)
| Scanned (visited : gset string) (queue : list (string * list string)).

Fixpoint scan_outgoing (target : string) (path : list string)
    (rels : list Relationship)
    (visited : gset string) (queue : list (string * list string)) : scan :=
  match rels with
  | [] => Scanned visited queue
  | rel :: rels' =>
    if decide (target_id rel = target) then Found (path ++ [target])
    else if decide (target_id rel ∈ visited) then
      scan_outgoing target path rels' visited queue
    else
      scan_outgoing target path rels'
        ({[target_id rel]} ∪ visited)
        (queue ++ [(target_id rel, path ++ [target_id rel])])
  end.

(** The [while queue:] loop; [queue.pop(0)] is the head of the list. *)
Fixpoint bfs_loop (fuel : nat) (g : KnowledgeGraph) (target : string)
    (max_depth : Z) (visited : gset string)
    (queue : list (string * list string)) : outcome (option (list string)) :=
  match fuel with
  | O => OutOfFuel
  | S fuel' =>
    match queue with
    | [] => Returned None
    | (current_id, path) :: queue' =>
      if decide (Z.of_nat (length path) > max_depth) then
        bfs_loop fuel' g target max_depth visited queue'
      else
        match scan_outgoing target path (get_outgoing g current_id None)
                            visited queue' with
        | Found p => Returned (Some p)
        | Scanned visited' queue'' =>
          bfs_loop fuel' g target max_depth visited' queue''
        end
    end
  end.

Definition shortest_path_fuel (fuel : nat) (g : KnowledgeGraph)
    (source target : string) (max_depth : Z)
  : outcome (option (list string)) :=
  if decide (source = target) then Returned (Some [source])
  else bfs_loop fuel g target max_depth {[source]} [(source, [source])].

(** Every id that is the target of an indexed outgoing relationship. *)
Definition all_targets (g : KnowledgeGraph) : gset string :=
  list_to_set (map target_id (concat (map snd (map_to_list (_outgoing g))))).

(** Fuel that always suffices: the source, one queue entry per distinct
    target, and the final test of the empty queue. *)
Definition bfs_fuel (g : KnowledgeGraph) : nat := 2 + size (all_targets g).

Definition shortest_path (g : KnowledgeGraph) (source target : string)
    (max_depth : Z) : outcome (option (list string)) :=
  shortest_path_fuel (bfs_fuel g) g source target max_depth.

(** A directed edge: some outgoing relationship of [u] points at [v]. *)
Definition edge (g : KnowledgeGraph) (u v : string) : Prop :=
  ∃ rel, rel ∈ get_outgoing g u None ∧ target_id rel = v.

(** [hops g u n v]: a directed walk of exactly [n] edges from [u] to [v]. *)
Inductive hops (g : KnowledgeGraph) (u : string) : nat → string → Prop :=
| hops_O : hops g u 0 u
| hops_S n v w : hops g u n v → edge g v w → hops g u (S n) w.

(** [walk g u p v]: the node list [p] runs from [u] to [v] along edges. *)
Inductive walk (g : KnowledgeGraph) (u : string) : list string → string → Prop :=
| walk_one : walk g u [u] u
| walk_snoc p v w : walk g u p v → edge g v w → walk g u (p ++ [w]) w.

(** ** find_all_connected *)

(** [for x in xs: if x not in visited: visited.add(x); new_frontier.add(x)] *)
Definition visit (st : gset string * gset string) (x : string)
  : gset string * gset string :=
  if decide (x ∈ st.1) then st else ({[x]} ∪ st.1, {[x]} ∪ st.2).

(** Body of [for entity_id in frontier]: first the outgoing relationships'
    targets, then the incoming relationships' sources. *)
Definition expand (g : KnowledgeGraph) (st : gset string * gset string)
    (entity : string) : gset string * gset string :=
  fold_left visit (map source_id (get_incoming g entity None))
    (fold_left visit (map target_id (get_outgoing g entity None)) st).

(** One round of [for _ in range(max_hops)]; the state is
    [(visited, frontier)].  Python iterates the frontier set in an
    unspecified order; [elements] fixes one. *)
Definition hop_round (g : KnowledgeGraph) (st : gset string * gset string)
  : gset string * gset string :=
  fold_left (expand g) (elements st.2) (st.1, ∅).

Definition find_all_connected (g : KnowledgeGraph) (start_id : string)
    (max_hops : Z) : gset string :=
  (Nat.iter (Z.to_nat max_hops) (hop_round g) ({[start_id]}, {[start_id]})).1.

(** Neighbours in either direction. *)
Definition adjacent (g : KnowledgeGraph) (u v : string) : Prop :=
  (∃ rel, rel ∈ get_outgoing g u None ∧ target_id rel = v) ∨
  (∃ rel, rel ∈ get_incoming g u None ∧ source_id rel = v).

(** [within g u n v]: [v] is reached from [u] by exactly [n] steps, each
    along a relationship in either direction. *)
Inductive within (g : KnowledgeGraph) (u : string) : nat → string → Prop :=
| within_O : within g u 0 u
| within_S n v w : within g u n v → adjacent g v w → within g u (S n) w.

(** ** The example graph of [build_example_graph] *)

Definition build_example_graph : KnowledgeGraph :=
  run_calls empty_graph
    [ AddEntity (mkEntity "project-apollo" "Project" "Project Apollo");
      AddEntity (mkEntity "supply-issue-1" "Issue" "Supply Chain Disruption");
      AddEntity (mkEntity "budget-q3" "Budget" "Q3 Operating Budget");
      AddEntity (mkEntity "sarah" "Person" "Sarah");
      AddEntity (mkEntity "project-mercury" "Project" "Project Mercury");
      AddEntity (mkEntity "bob" "Person" "Bob");
      AddRelationship (mkRelationship "rel-1" "project-apollo" "supply-issue-1" DELAYED_BY);
      AddRelationship (mkRelationship "rel-2" "supply-issue-1" "budget-q3" AFFECTS);
      AddRelationship (mkRelationship "rel-3" "budget-q3" "sarah" APPROVED_BY);
      AddRelationship (mkRelationship "rel-4" "bob" "project-apollo" OWNS);
      AddRelationship (mkRelationship "rel-5" "bob" "sarah" REPORTS_TO);
      AddRelationship (mkRelationship "rel-6" "project-mercury" "project-apollo" DEPENDS_ON) ].

(* --------------------------------------------------------------------- *)
(** ** Properties *)
(* --------------------------------------------------------------------- *)

Example demo_traverse :
  traverse build_example_graph "project-apollo"
           [DELAYED_BY; AFFECTS; APPROVED_BY] traverse_default_depth
  = [["project-apollo"; "supply-issue-1"; "budget-q3"; "sarah"]].
Proof. vm_compute. reflexivity. Qed.

Example demo_shortest_path :
  shortest_path build_example_graph "project-mercury" "sarah" 5
  = Returned (Some ["project-mercury"; "project-apollo"; "supply-issue-1";
                    "budget-q3"; "sarah"]).
Proof. vm_compute. reflexivity. Qed.

Example demo_find_all_connected :
  find_all_connected build_example_graph "supply-issue-1" 2
  = {[ "supply-issue-1"; "project-apollo"; "budget-q3"; "sarah"; "bob";
       "project-mercury" ]}.
Proof. vm_compute. reflexivity. Qed.

(** *** Index consistency *)

Lemma dd_append_lookup {A} (d : gmap string (list A)) key x id :
  default [] (dd_append d key x !! id)
  = if decide (key = id) then default [] (d !! key) ++ [x]
    else default [] (d !! id).
Proof.
  unfold dd_append. destruct (decide (key = id)) as [->|Hne].
  - by rewrite lookup_insert_eq.
  - by rewrite lookup_insert_ne.
Qed.

Lemma filter_snoc {A} (P : A → Prop) `{!∀ x, Decision (P x)} (l : list A) x :
  filter P (l ++ [x]) = filter P l ++ (if decide (P x) then [x] else []).
Proof.
  by rewrite filter_app.
Qed.

Lemma indexed_empty : indexed empty_graph.
Proof. intros id. cbn. by rewrite !lookup_empty. Qed.

Lemma indexed_add_entity g e : indexed g → indexed (add_entity g e).
Proof. intros H id. exact (H id). Qed.

Lemma indexed_add_relationship g r :
  indexed g → indexed (add_relationship g r).
Proof.
  intros H id. cbn. rewrite !dd_append_lookup, !filter_snoc.
  destruct (H id) as [Ho Hi]. split.
  - destruct (decide (source_id r = id)) as [Heq|Hne].
    + rewrite Heq. by f_equal.
    + rewrite app_nil_r. exact Ho.
  - destruct (decide (target_id r = id)) as [Heq|Hne].
    + rewrite Heq. by f_equal.
    + rewrite app_nil_r. exact Hi.
Qed.

Lemma run_calls_indexed cs g : indexed g → indexed (run_calls g cs).
Proof.
  revert g. induction cs as [|c cs IH]; intros g H; [done|].
  cbn. apply IH. destruct c; [by apply indexed_add_entity|].
  by apply indexed_add_relationship.
Qed.

Lemma run_calls_relationships cs g :
  _relationships (run_calls g cs) = _relationships g ++ added cs.
Proof.
  revert g. induction cs as [|c cs IH]; intros g; cbn.
  - by rewrite app_nil_r.
  - unfold run_calls in IH. rewrite IH. destruct c; cbn; [done|].
    by rewrite <- app_assoc.
Qed.

Lemma indexed_outgoing g id rt :
  indexed g →
  get_outgoing g id rt
  = filter_type rt (filter (λ r, source_id r = id) (_relationships g)).
Proof. intros H. unfold get_outgoing. by rewrite (proj1 (H id)). Qed.

Lemma indexed_incoming g id rt :
  indexed g →
  get_incoming g id rt
  = filter_type rt (filter (λ r, target_id r = id) (_relationships g)).
Proof. intros H. unfold get_incoming. by rewrite (proj2 (H id)). Qed.

(** C10. After any sequence of [add_entity] and [add_relationship] calls on
    a fresh graph, [get_outgoing(id)] without a type filter is exactly the
    list of relationships added with [source_id = id], in insertion order,
    and [get_incoming(id)] exactly those added with [target_id = id]; with
    a [rel_type] filter each is the sub-list of those having that type. *)
Theorem index_consistency (cs : list call) (id : string) :
  let g := run_calls empty_graph cs in
  get_outgoing g id None = filter (λ r, source_id r = id) (added cs) ∧
  get_incoming g id None = filter (λ r, target_id r = id) (added cs) ∧
  (∀ t, get_outgoing g id (Some t)
        = filter (λ r, rel_type r = t)
                 (filter (λ r, source_id r = id) (added cs))) ∧
  (∀ t, get_incoming g id (Some t)
        = filter (λ r, rel_type r = t)
                 (filter (λ r, target_id r = id) (added cs))).
Proof.
  intros g.
  assert (Hi : indexed g) by apply run_calls_indexed, indexed_empty.
  assert (Hr : _relationships g = added cs)
    by (unfold g; by rewrite run_calls_relationships).
  repeat split; intros;
    rewrite ?indexed_outgoing, ?indexed_incoming by done; by rewrite Hr.
Qed.

(** *** traverse *)

Lemma traverse_cons g s t pat d :
  traverse g s (t :: pat) d
  = concat (map (λ rel, map (cons s) (traverse g (target_id rel) pat (d - 1)))
                (get_outgoing g s (Some t))).
Proof. destruct pat; reflexivity. Qed.

(** [max_depth] has no influence on the result. *)
Lemma traverse_depth_irrelevant g pat : ∀ s d d',
  traverse g s pat d = traverse g s pat d'.
Proof.
  induction pat as [|t pat IH]; intros s d d'; [done|].
  rewrite !traverse_cons. f_equal. apply map_ext. intros rel.
  f_equal. apply IH.
Qed.

Lemma elem_of_concat {A} (x : A) (ls : list (list A)) :
  x ∈ concat ls ↔ ∃ l, x ∈ l ∧ l ∈ ls.
Proof.
  rewrite list_elem_of_In, in_concat. split.
  - intros (l & Hl & Hx). exists l. by rewrite !list_elem_of_In.
  - intros (l & Hx & Hl). exists l. by rewrite <- !list_elem_of_In.
Qed.

Lemma elem_of_traverse_cons g s t pat d p :
  p ∈ traverse g s (t :: pat) d ↔
  ∃ rel q, rel ∈ get_outgoing g s (Some t) ∧
           q ∈ traverse g (target_id rel) pat (d - 1) ∧ p = s :: q.
Proof.
  rewrite traverse_cons, elem_of_concat. split.
  - intros (l & Hp & Hl). apply list_elem_of_fmap in Hl as (rel & -> & Hrel).
    apply list_elem_of_fmap in Hp as (q & -> & Hq). eauto.
  - intros (rel & q & Hrel & Hq & ->).
    exists (map (cons s) (traverse g (target_id rel) pat (d - 1))). split.
    + apply list_elem_of_fmap. eauto.
    + apply list_elem_of_fmap. exists rel. eauto.
Qed.

Lemma elem_of_outgoing_typed g s t rel :
  indexed g →
  rel ∈ get_outgoing g s (Some t) ↔
  rel ∈ _relationships g ∧ source_id rel = s ∧ rel_type rel = t.
Proof.
  intros Hi. rewrite indexed_outgoing by done. cbn.
  rewrite !list_elem_of_filter. tauto.
Qed.

(** The claim's words, position by position: the path has one node more
    than the pattern has types, starts at [start], and every step [i] is
    covered by a relationship of the graph of type [pattern[i]]. *)
Definition path_matches (g : KnowledgeGraph) (start : string)
    (pattern : list RelationType) (p : list string) : Prop :=
  length p = S (length pattern) ∧
  p !! 0%nat = Some start ∧
  ∀ (i : nat) t, pattern !! i = Some t →
    ∃ r, r ∈ _relationships g ∧
         p !! i = Some (source_id r) ∧ p !! S i = Some (target_id r) ∧
         rel_type r = t.

Lemma traverse_membership g pat :
  indexed g →
  ∀ s d p, p ∈ traverse g s pat d ↔ path_matches g s pat p.
Proof.
  intros Hi. induction pat as [|t pat IH]; intros s d p.
  - cbn. rewrite list_elem_of_singleton. unfold path_matches. split.
    + intros ->. split; [done|]. split; [done|]. intros i t Hl. by destruct i.
    + intros (Hlen & H0 & _). destruct p as [|x [|y p]]; try done.
      cbn in H0. by inversion H0.
  - rewrite elem_of_traverse_cons. split.
    + intros (rel & q & Hrel & Hq & ->).
      apply elem_of_outgoing_typed in Hrel as (Hin & Hs & Ht); [|done].
      apply IH in Hq as (Hlen & H0 & Hstep).
      split; [cbn; by rewrite Hlen|]. split; [done|].
      intros [|i] t' Hl; cbn in Hl.
      * inversion Hl; subst t'. exists rel. cbn. by rewrite Hs.
      * destruct (Hstep i t' Hl) as (r & ? & ? & ? & ?). exists r. by cbn.
    + intros (Hlen & H0 & Hstep). destruct p as [|x q]; [done|].
      cbn in H0. inversion H0; subst x.
      destruct (Hstep 0%nat t eq_refl) as (r & Hin & Hsrc & Htgt & Hty).
      cbn in Hsrc, Htgt. inversion Hsrc as [Hs].
      exists r, q. split; [|split; [|done]].
      * apply elem_of_outgoing_typed; done.
      * apply IH. split; [cbn in Hlen; lia|]. split; [done|].
        intros i t' Hl. destruct (Hstep (S i) t' Hl) as (r' & ? & ? & ? & ?).
        exists r'. by cbn in *.
Qed.

Lemma follows_cons s t pat r rs :
  follows s (t :: pat) (r :: rs) = true ↔
  source_id r = s ∧ rel_type r = t ∧ follows (target_id r) pat rs = true.
Proof.
  cbn [follows]. rewrite !andb_true_iff, !bool_decide_eq_true. tauto.
Qed.

Lemma follows_cons_filter s t pat r (seqs : list (list Relationship)) :
  map (nodes_of s)
      (filter (λ rs, follows s (t :: pat) rs = true) (map (cons r) seqs))
  = if decide (source_id r = s ∧ rel_type r = t)
    then map (cons s)
             (map (nodes_of (target_id r))
                  (filter (λ rs, follows (target_id r) pat rs = true) seqs))
    else [].
Proof.
  induction seqs as [|rs seqs IH]; [by case_decide|].
  cbn [map]. rewrite !filter_cons.
  destruct (decide (source_id r = s ∧ rel_type r = t)) as [[Hs Ht]|Hn].
  - destruct (decide (follows (target_id r) pat rs = true)) as [Hf|Hf].
    + rewrite decide_True by (by apply follows_cons).
      cbn [map]. rewrite IH. done.
    + rewrite decide_False; [exact IH|]. rewrite follows_cons. tauto.
  - rewrite decide_False; [exact IH|]. rewrite follows_cons. tauto.
Qed.

Lemma traverse_sequences_aux s t pat (F : string → list (list string))
    (seqs : list (list Relationship)) (l : list Relationship) :
  (∀ u, F u = map (nodes_of u) (filter (λ rs, follows u pat rs = true) seqs)) →
  concat (map (λ rel, map (cons s) (F (target_id rel)))
              (filter (λ r, rel_type r = t)
                      (filter (λ r, source_id r = s) l)))
  = map (nodes_of s)
        (filter (λ rs, follows s (t :: pat) rs = true)
                (r ← l; map (cons r) seqs)).
Proof.
  intros HF. induction l as [|r l IH]; [done|].
  cbn [mbind list_bind]. rewrite filter_app, List.map_app, follows_cons_filter.
  rewrite <- IH. rewrite (filter_cons _ r l).
  destruct (decide (source_id r = s)) as [Hs|Hs].
  - rewrite (filter_cons _ r). destruct (decide (rel_type r = t)) as [Ht|Ht].
    + rewrite decide_True by done. cbn. by rewrite HF.
    + rewrite decide_False by tauto. done.
  - rewrite decide_False by tauto. done.
Qed.

Lemma traverse_sequences g pat :
  indexed g →
  ∀ s d, traverse g s pat d = map (nodes_of s) (matching_sequences g s pat).
Proof.
  intros Hi. induction pat as [|t pat IH]; intros s d; [done|].
  rewrite traverse_cons, indexed_outgoing by done.
  unfold matching_sequences. cbn [length rel_sequences filter_type].
  apply (traverse_sequences_aux s t pat
           (λ u, traverse g u pat (d - 1))).
  intros u. apply IH.
Qed.

(** C3. On a graph whose indexes are consistent (every graph built by the
    mutators), [traverse(start_id, path_pattern)] returns [[start_id]] for
    the empty pattern; a node list is returned exactly when it has
    [len(path_pattern) + 1] nodes, starts at [start_id], and each step [i]
    is covered by a relationship of type [path_pattern[i]]; and the result
    lists one path per matching sequence of relationships, in order. *)
Theorem traverse_spec (g : KnowledgeGraph) (start_id : string)
    (path_pattern : list RelationType) :
  indexed g →
  traverse g start_id [] traverse_default_depth = [[start_id]] ∧
  (∀ p, p ∈ traverse g start_id path_pattern traverse_default_depth ↔
        path_matches g start_id path_pattern p) ∧
  traverse g start_id path_pattern traverse_default_depth
  = map (nodes_of start_id) (matching_sequences g start_id path_pattern).
Proof.
  intros Hi. split; [done|]. split.
  - intros p. by apply traverse_membership.
  - by apply traverse_sequences.
Qed.

Lemma traverse_spec_witness :
  indexed build_example_graph ∧
  traverse build_example_graph "project-apollo"
           [DELAYED_BY; AFFECTS; APPROVED_BY] traverse_default_depth
  = map (nodes_of "project-apollo")
        (matching_sequences build_example_graph "project-apollo"
                            [DELAYED_BY; AFFECTS; APPROVED_BY]).
Proof.
  assert (H : indexed build_example_graph)
    by apply run_calls_indexed, indexed_empty.
  split; [exact H|].
  exact (proj2 (proj2 (traverse_spec build_example_graph "project-apollo"
                         [DELAYED_BY; AFFECTS; APPROVED_BY] H))).
Defined.

(** *** traverse ignores max_depth *)

(** The two-edge chain a -> b -> c. *)
Definition chain_graph : KnowledgeGraph :=
  run_calls empty_graph
    [ AddRelationship (mkRelationship "r1" "a" "b" OWNS);
      AddRelationship (mkRelationship "r2" "b" "c" OWNS) ].

(** C4 (fails on the code). With [max_depth = 1] and a pattern of two
    types, [traverse] still returns the two-hop path a, b, c: the depth
    parameter is decremented on the way down but never tested. *)
Theorem traverse_exceeds_max_depth :
  traverse chain_graph "a" [OWNS; OWNS] 1 = [["a"; "b"; "c"]] ∧
  ¬ (∀ p, p ∈ traverse chain_graph "a" [OWNS; OWNS] 1 → hop_count p ≤ 1).
Proof.
  assert (H : traverse chain_graph "a" [OWNS; OWNS] 1 = [["a"; "b"; "c"]])
    by (vm_compute; reflexivity).
  split; [exact H|].
  intros Hb. specialize (Hb ["a"; "b"; "c"]). rewrite H in Hb.
  specialize (Hb (list_elem_of_here _ _)). vm_compute in Hb. by apply Hb.
Qed.

(** *** find_all_connected *)

(** The ids one loop body of [find_all_connected] looks at for an entity. *)
Definition neighbours (g : KnowledgeGraph) (entity : string) : list string :=
  map target_id (get_outgoing g entity None)
  ++ map source_id (get_incoming g entity None).

Lemma elem_of_neighbours g u v : v ∈ neighbours g u ↔ adjacent g u v.
Proof.
  unfold neighbours, adjacent. rewrite elem_of_app, !list_elem_of_fmap.
  split; (intros [(r & H1 & H2)|(r & H1 & H2)]; [left|right]; by exists r).
Qed.

Lemma visit_fold xs : ∀ st x,
  (x ∈ fst (fold_left visit xs st) ↔ x ∈ fst st ∨ x ∈ xs) ∧
  (x ∈ snd (fold_left visit xs st) ↔ x ∈ snd st ∨ ((x ∉ fst st) ∧ x ∈ xs)).
Proof.
  induction xs as [|y xs IH]; intros [V F] x; cbn [fold_left].
  - rewrite !elem_of_nil. tauto.
  - destruct (IH (visit (V, F) y) x) as [IH1 IH2]. rewrite IH1, IH2.
    rewrite elem_of_cons. unfold visit. cbn [fst snd].
    destruct (decide (y ∈ V)) as [Hy|Hy]; cbn [fst snd].
    + assert (x = y → x ∈ V) by (by intros ->). tauto.
    + rewrite !elem_of_union, !elem_of_singleton.
      destruct (decide (x = y)) as [->|?]; tauto.
Qed.

Lemma expand_spec g st e x :
  (x ∈ fst (expand g st e) ↔ x ∈ fst st ∨ x ∈ neighbours g e) ∧
  (x ∈ snd (expand g st e) ↔ x ∈ snd st ∨ ((x ∉ fst st) ∧ x ∈ neighbours g e)).
Proof.
  unfold expand, neighbours. rewrite elem_of_app.
  set (outs := map target_id (get_outgoing g e None)).
  set (ins := map source_id (get_incoming g e None)).
  destruct (visit_fold ins (fold_left visit outs st) x) as [H1 H2].
  destruct (visit_fold outs st x) as [H3 H4].
  rewrite H1, H2, H3, H4.
  destruct (decide (x ∈ outs)); tauto.
Qed.

Lemma expand_fold g es : ∀ st x,
  (x ∈ fst (fold_left (expand g) es st) ↔
     x ∈ fst st ∨ ∃ e, e ∈ es ∧ x ∈ neighbours g e) ∧
  (x ∈ snd (fold_left (expand g) es st) ↔
     x ∈ snd st ∨ ((x ∉ fst st) ∧ ∃ e, e ∈ es ∧ x ∈ neighbours g e)).
Proof.
  induction es as [|e es IH]; intros st x; cbn [fold_left].
  - split; [|]; (split; [tauto|]); intros [?|H]; try tauto;
      [destruct H as (e & He & _)|destruct H as (_ & e & He & _)];
      by apply not_elem_of_nil in He.
  - destruct (IH (expand g st e) x) as [IH1 IH2].
    destruct (expand_spec g st e x) as [E1 E2].
    rewrite IH1, IH2, E1, E2.
    assert (Hcons : (∃ e', e' ∈ e :: es ∧ x ∈ neighbours g e') ↔
                    x ∈ neighbours g e ∨ ∃ e', e' ∈ es ∧ x ∈ neighbours g e').
    { split.
      - intros (e' & [->|He']%elem_of_cons & Hx); eauto.
      - intros [Hx|(e' & He' & Hx)]; [exists e|exists e'];
          rewrite elem_of_cons; auto. }
    rewrite Hcons. destruct (decide (x ∈ neighbours g e)); tauto.
Qed.

Lemma hop_round_spec g st x :
  (x ∈ fst (hop_round g st) ↔ x ∈ fst st ∨ ∃ e, e ∈ snd st ∧ adjacent g e x) ∧
  (x ∈ snd (hop_round g st) ↔ (x ∉ fst st) ∧ ∃ e, e ∈ snd st ∧ adjacent g e x).
Proof.
  unfold hop_round.
  destruct (expand_fold g (elements (snd st)) (fst st, ∅) x) as [H1 H2].
  rewrite H1, H2. cbn [fst snd].
  assert (He : (∃ e, e ∈ elements (snd st) ∧ x ∈ neighbours g e) ↔
               (∃ e, e ∈ snd st ∧ adjacent g e x)).
  { split; intros (e & He & Hx); exists e;
      [rewrite <- elem_of_neighbours, <- elem_of_elements
      |rewrite elem_of_neighbours, elem_of_elements]; done. }
  rewrite He. split; [tauto|]. split; [|tauto].
  intros [H|H]; [by apply not_elem_of_empty in H|done].
Qed.

(** State of [find_all_connected] after [n] rounds. *)
Definition rounds (g : KnowledgeGraph) (start_id : string) (n : nat)
  : gset string * gset string :=
  Nat.iter n (hop_round g) ({[start_id]}, {[start_id]}).

Lemma rounds_invariant g s n :
  (∀ x, x ∈ fst (rounds g s n) ↔ ∃ m, (m ≤ n)%nat ∧ within g s m x) ∧
  (∀ x, x ∈ snd (rounds g s n) → x ∈ fst (rounds g s n)) ∧
  (∀ x, x ∈ fst (rounds g s n) →
        x ∈ snd (rounds g s n) ∨ ∃ m, (m < n)%nat ∧ within g s m x).
Proof.
  induction n as [|n (IH1 & IH2 & IH3)].
  - cbn. split; [|split].
    + intros x. rewrite elem_of_singleton. split.
      * intros ->. exists 0%nat. split; [lia|constructor].
      * intros (m & Hm & Hw). assert (m = 0%nat) as -> by lia.
        by inversion Hw.
    + done.
    + auto.
  - unfold rounds in *. cbn [Nat.iter].
    set (st := Nat.iter n (hop_round g) ({[s]}, {[s]})) in *.
    assert (Hstep : ∀ x, x ∈ fst (hop_round g st) ↔
                         ∃ m, (m ≤ S n)%nat ∧ within g s m x).
    { intros x. rewrite (proj1 (hop_round_spec g st x)). split.
      - intros [Hx|(e & He & Ha)].
        + apply IH1 in Hx as (m & Hm & Hw). exists m. split; [lia|done].
        + apply IH2, IH1 in He as (m & Hm & Hw). exists (S m).
          split; [lia|]. by econstructor.
      - intros (m & Hm & Hw).
        destruct (decide (m ≤ n)%nat) as [Hle|Hgt].
        { left. apply IH1. eauto. }
        assert (m = S n) as -> by lia.
        inversion Hw as [|n' v w Hw' Ha]; subst.
        assert (Hv : v ∈ fst st) by (apply IH1; eauto).
        destruct (IH3 v Hv) as [Hf|(m' & Hm' & Hw'')].
        + right. eauto.
        + left. apply IH1. exists (S m'). split; [lia|].
          by econstructor. }
    split; [exact Hstep|]. split.
    + intros x Hx. apply (proj2 (hop_round_spec g st x)) in Hx.
      apply (proj1 (hop_round_spec g st x)). tauto.
    + intros x Hx. destruct (decide (x ∈ fst st)) as [Hin|Hout].
      * right. apply IH1 in Hin as (m & Hm & Hw). exists m.
        split; [lia|done].
      * left. apply (proj2 (hop_round_spec g st x)).
        apply (proj1 (hop_round_spec g st x)) in Hx. tauto.
Qed.



(** *** shortest_path *)

Lemma elem_of_all_targets g u rel :
  rel ∈ get_outgoing g u None → target_id rel ∈ all_targets g.
Proof.
  unfold get_outgoing, all_targets. cbn [filter_type]. intros Hrel.
  destruct (_outgoing g !! u) as [l|] eqn:Hl; cbn in Hrel;
    [|by apply elem_of_nil in Hrel].
  apply elem_of_list_to_set, list_elem_of_fmap. exists rel. split; [done|].
  apply elem_of_concat. exists l. split; [done|].
  apply list_elem_of_fmap. exists (u, l). split; [done|].
  by apply elem_of_map_to_list.
Qed.

Lemma walk_hops g p u v :
  walk g u p v → hops g u (length p - 1) v.
Proof.
  induction 1 as [|p v w Hw IH He].
  - constructor.
  - rewrite length_app. cbn [length].
    replace (length p + 1 - 1)%nat with (S (length p - 1)).
    + by econstructor.
    + assert (length p ≠ 0%nat) by (inversion Hw; [done|];
        rewrite length_app; cbn; lia). lia.
Qed.

Lemma walk_length g p u v : walk g u p v → (1 ≤ length p)%nat.
Proof. inversion 1; [cbn; lia|rewrite length_app; cbn; lia]. Qed.

(** What the inner loop does to [visited] and [queue]. *)
Lemma scan_outgoing_spec t p rels : ∀ V Q,
  match scan_outgoing t p rels V Q with
  | Found p' => p' = p ++ [t] ∧ t ∈ map target_id rels
  | Scanned V' Q' =>
    (t ∉ map target_id rels) ∧
    ∃ new, Q' = Q ++ new ∧
      (∀ w q, (w, q) ∈ new →
              q = p ++ [w] ∧ w ∈ map target_id rels ∧ w ∉ V) ∧
      (∀ x, x ∈ V' ↔ x ∈ V ∨ x ∈ map fst new) ∧
      (∀ x, x ∈ map target_id rels → x ∈ V') ∧
      (∀ N : gset string, (∀ x, x ∈ map target_id rels → x ∈ N) →
         (length Q' + size (N ∖ V') = length Q + size (N ∖ V))%nat)
  end.
Proof.
  induction rels as [|rel rels IH]; intros V Q; cbn [scan_outgoing map].
  - split; [apply not_elem_of_nil|]. exists []. rewrite app_nil_r.
    split; [done|]. split; [by intros w q ?%elem_of_nil|].
    split; [|split; [by intros x ?%elem_of_nil|done]].
    intros x. cbn. rewrite elem_of_nil. tauto.
  - destruct (decide (target_id rel = t)) as [Ht|Ht].
    { split; [done|]. rewrite Ht. apply list_elem_of_here. }
    destruct (decide (target_id rel ∈ V)) as [Hin|Hout].
    + specialize (IH V Q). destruct (scan_outgoing t p rels V Q) as [p'|V' Q'].
      * destruct IH as [-> Hin']. split; [done|]. by apply list_elem_of_further.
      * destruct IH as (Hnt & new & -> & Hnew & HV & Hall & Hsize).
        split; [rewrite elem_of_cons; intros [?|?]; congruence|].
        exists new. split; [done|]. split; [|split; [done|split]].
        -- intros w q Hwq. destruct (Hnew w q Hwq) as (? & ? & ?).
           split; [done|]. split; [by apply list_elem_of_further|done].
        -- intros x [->|Hx]%elem_of_cons; [apply HV; by left|by apply Hall].
        -- intros N HN. apply Hsize. intros x Hx. apply HN.
           by apply list_elem_of_further.
    + set (w := target_id rel) in *.
      specialize (IH ({[w]} ∪ V) (Q ++ [(w, p ++ [w])])).
      destruct (scan_outgoing t p rels ({[w]} ∪ V) (Q ++ [(w, p ++ [w])]))
        as [p'|V' Q'].
      * destruct IH as [-> Hin']. split; [done|]. by apply list_elem_of_further.
      * destruct IH as (Hnt & new & -> & Hnew & HV & Hall & Hsize).
        split; [rewrite elem_of_cons; intros [?|?]; congruence|].
        exists ((w, p ++ [w]) :: new). split; [by rewrite <- app_assoc|].
        split; [|split; [|split]].
        -- intros w' q [Heq|Hwq]%elem_of_cons.
           ++ inversion Heq; subst w' q. split; [done|].
              split; [apply list_elem_of_here|done].
           ++ destruct (Hnew w' q Hwq) as (? & ? & Hn).
              split; [done|]. split; [by apply list_elem_of_further|].
              intros ?. apply Hn. apply elem_of_union. by right.
        -- intros x. rewrite HV, elem_of_union, elem_of_singleton.
           cbn [map fst]. rewrite elem_of_cons. tauto.
        -- intros x [->|Hx]%elem_of_cons; [|by apply Hall].
           apply HV. left. apply elem_of_union. left. by apply elem_of_singleton.
        -- intros N HN.
           rewrite Hsize by (intros x Hx; apply HN; by apply list_elem_of_further).
           rewrite length_app. cbn [length].
           assert (HwN : w ∈ N) by apply HN, list_elem_of_here.
           assert (Hsplit : N ∖ V = {[w]} ∪ (N ∖ ({[w]} ∪ V))).
           { apply set_eq. intros x.
             rewrite !elem_of_difference, !elem_of_union, !elem_of_difference,
               !elem_of_union, !elem_of_singleton.
             destruct (decide (x = w)) as [->|?]; tauto. }
           rewrite Hsplit, (size_union {[w]} (N ∖ ({[w]} ∪ V))), size_singleton.
           { lia. }
           intros x. rewrite elem_of_singleton, elem_of_difference, elem_of_union,
             elem_of_singleton. tauto.
Qed.

Section bfs.
Variable g : KnowledgeGraph.
Variables source target : string.
Variable max_depth : Z.

(** Loop invariant of [shortest_path]: the queue is [A ++ B], where the
    entries of [A] sit at depth [d] and those of [B] at depth [d + 1];
    every visited node is still queued or has been expanded. *)
Record bfs_inv (d : nat) (V : gset string)
    (A B : list (string * list string)) : Prop := {
  inv_A : ∀ u p, (u, p) ∈ A →
    walk g source p u ∧ length p = S d ∧ u ∈ V ∧
    ∀ n, hops g source n u → (d ≤ n)%nat;
  inv_B : ∀ u p, (u, p) ∈ B →
    walk g source p u ∧ length p = S (S d) ∧ u ∈ V ∧
    ∀ n, hops g source n u → (S d ≤ n)%nat;
  inv_source : source ∈ V;
  inv_target : target ∉ V;
  inv_done : ∀ v, v ∈ V →
    v ∈ map fst (A ++ B) ∨ ∀ w, edge g v w → w ≠ target ∧ w ∈ V
}.

(** What [shortest_path] may return. *)
Definition bfs_post (r : option (list string)) : Prop :=
  match r with
  | Some p =>
    walk g source p target ∧ Z.of_nat (length p) - 1 ≤ max_depth ∧
    ∀ n, hops g source n target → (length p - 1 ≤ n)%nat
  | None => ∀ n, Z.of_nat n ≤ max_depth → ¬ hops g source n target
  end.

Lemma inv_queued_far d V A B u p n :
  bfs_inv d V A B → (u, p) ∈ A ++ B → hops g source n u → (d ≤ n)%nat.
Proof.
  intros Hinv [Hin|Hin]%elem_of_app Hh.
  - by apply (inv_A _ _ _ _ Hinv u p Hin).
  - apply (inv_B _ _ _ _ Hinv u p Hin) in Hh. lia.
Qed.

Lemma inv_near_done d V A B :
  bfs_inv d V A B →
  ∀ n v, hops g source n v → (n < d)%nat →
    v ∈ V ∧ ∀ w, edge g v w → w ≠ target ∧ w ∈ V.
Proof.
  intros Hinv.
  assert (Hq : ∀ n v, hops g source n v → (n < d)%nat → v ∈ V →
                      ∀ w, edge g v w → w ≠ target ∧ w ∈ V).
  { intros n v Hh Hn Hv.
    destruct (inv_done _ _ _ _ Hinv v Hv) as [Hqueued|Hdone]; [|done].
    apply list_elem_of_fmap in Hqueued as ([u p] & -> & Hin).
    pose proof (inv_queued_far _ _ _ _ _ _ _ Hinv Hin Hh). cbn in *. lia. }
  intros n v Hh. induction Hh as [|n v w Hh IH He]; intros Hn.
  - assert (Hs : source ∈ V) by (inversion Hinv; done). split; [done|].
    (* the start of a walk from [source] is [source] itself *)
    apply (Hq 0%nat); [constructor|done|done].
  - destruct IH as [Hv Hdone]; [lia|].
    destruct (Hdone w He) as [Hwt Hw]. split; [done|].
    apply (Hq (S n)); [by econstructor|done|done].
Qed.

Lemma inv_target_far d V A B :
  bfs_inv d V A B → ∀ n, (n ≤ d)%nat → ¬ hops g source n target.
Proof.
  intros Hinv n Hn Hh. inversion Hh as [Hn0 Hst|n' v w Hh' He Hn' Hw].
  - apply (inv_target _ _ _ _ Hinv). rewrite <- Hst.
    apply (inv_source _ _ _ _ Hinv).
  - destruct (inv_near_done _ _ _ _ Hinv n' v Hh') as [_ Hdone]; [lia|].
    by destruct (Hdone target He).
Qed.

Lemma inv_shift d V B :
  bfs_inv d V [] B → bfs_inv (S d) V B [].
Proof.
  intros Hinv. split.
  - apply (inv_B _ _ _ _ Hinv).
  - by intros u p ?%elem_of_nil.
  - apply (inv_source _ _ _ _ Hinv).
  - apply (inv_target _ _ _ _ Hinv).
  - intros v Hv. rewrite app_nil_r.
    exact (inv_done _ _ _ _ Hinv v Hv).
Qed.

Lemma inv_empty_unreachable d V :
  bfs_inv d V [] [] → ∀ n, ¬ hops g source n target.
Proof.
  intros Hinv n Hh.
  assert (Hall : ∀ n v, hops g source n v → v ∈ V).
  { clear n Hh. intros n v Hh. induction Hh as [|n v w Hh IH He].
    - apply (inv_source _ _ _ _ Hinv).
    - destruct (inv_done _ _ _ _ Hinv v IH) as [Hq|Hdone].
      + cbn in Hq. by apply elem_of_nil in Hq.
      + by destruct (Hdone w He). }
  apply (inv_target _ _ _ _ Hinv). by apply (Hall n).
Qed.

(** Once the head of the queue is too deep, so is everything behind it,
    and the loop drains the queue. *)
Lemma bfs_loop_drain fuel V Q :
  (∀ u p, (u, p) ∈ Q → Z.of_nat (length p) > max_depth) →
  (length Q < fuel)%nat →
  bfs_loop fuel g target max_depth V Q = Returned None.
Proof.
  revert Q. induction fuel as [|fuel IH]; intros Q Hdeep Hfuel; [lia|].
  destruct Q as [|[u p] Q]; [done|]. cbn [bfs_loop].
  rewrite decide_True by (apply (Hdeep u p), list_elem_of_here).
  apply IH.
  - intros u' p' Hin. apply (Hdeep u' p'). by apply list_elem_of_further.
  - cbn in Hfuel. lia.
Qed.

Lemma inv_init : source ≠ target → bfs_inv 0 {[source]} [(source, [source])] [].
Proof.
  intros Hne. split.
  - intros u p Hin%list_elem_of_singleton. inversion Hin; subst u p.
    split; [constructor|]. split; [done|].
    split; [by apply elem_of_singleton|]. intros; lia.
  - by intros u p ?%elem_of_nil.
  - by apply elem_of_singleton.
  - rewrite elem_of_singleton. congruence.
  - intros v Hv%elem_of_singleton. subst v. left. cbn. apply list_elem_of_here.
Qed.

Lemma edge_targets u w :
  edge g u w ↔ w ∈ map target_id (get_outgoing g u None).
Proof.
  unfold edge. rewrite list_elem_of_fmap. split.
  - intros (rel & Hin & <-). by exists rel.
  - intros (rel & -> & Hin). by exists rel.
Qed.

(** The invariant survives one full scan of the head's relationships. *)
Lemma inv_scanned d V u p A B V' new :
  bfs_inv d V ((u, p) :: A) B →
  target ∉ map target_id (get_outgoing g u None) →
  (∀ w q, (w, q) ∈ new →
          q = p ++ [w] ∧ w ∈ map target_id (get_outgoing g u None) ∧ w ∉ V) →
  (∀ x, x ∈ V' ↔ x ∈ V ∨ x ∈ map fst new) →
  (∀ x, x ∈ map target_id (get_outgoing g u None) → x ∈ V') →
  bfs_inv d V' A (B ++ new).
Proof.
  intros Hinv Hnt Hnew HV Hall.
  destruct (inv_A _ _ _ _ Hinv u p (list_elem_of_here _ _))
    as (Hwalk & Hlen & HuV & Hfar).
  split.
  - intros u' p' Hin.
    destruct (inv_A _ _ _ _ Hinv u' p' (list_elem_of_further _ _ _ Hin))
      as (? & ? & ? & ?).
    split; [done|]. split; [done|]. split; [|done]. apply HV. by left.
  - intros w q [Hin|Hin]%elem_of_app.
    + destruct (inv_B _ _ _ _ Hinv w q Hin) as (? & ? & ? & ?).
      split; [done|]. split; [done|]. split; [|done]. apply HV. by left.
    + destruct (Hnew w q Hin) as (-> & Hw & HwV).
      split; [econstructor; [done|by apply edge_targets]|].
      split; [rewrite length_app; cbn; lia|]. split; [by apply Hall|].
      intros n Hh. destruct (decide (S d ≤ n)%nat) as [|Hlt]; [done|].
      exfalso. apply HwV. inversion Hh as [Hn0 Hs|n' v w' Hh' He Hn' Hw'].
      * rewrite <- Hs. apply (inv_source _ _ _ _ Hinv).
      * subst. destruct (inv_near_done _ _ _ _ Hinv n' v Hh') as [_ Hdone];
          [lia|]. by destruct (Hdone w He).
  - apply HV. left. apply (inv_source _ _ _ _ Hinv).
  - intros Ht. apply HV in Ht as [Ht|Ht].
    + by apply (inv_target _ _ _ _ Hinv).
    + apply list_elem_of_fmap in Ht as ([w q] & Hw & Hin). cbn in Hw. subst w.
      destruct (Hnew _ _ Hin) as (_ & Ht & _). done.
  - intros v Hv. apply HV in Hv as [Hv|Hv].
    + destruct (inv_done _ _ _ _ Hinv v Hv) as [Hq|Hdone].
      * cbn [app map fst] in Hq. apply elem_of_cons in Hq as [->|Hq].
        -- right. intros w He. apply edge_targets in He.
           split; [intros ->; done|by apply Hall].
        -- left. rewrite List.map_app in Hq. apply elem_of_app in Hq.
           rewrite !List.map_app, !elem_of_app. tauto.
      * right. intros w He. destruct (Hdone w He). split; [done|].
        apply HV. by left.
    + left. rewrite !List.map_app, !elem_of_app. auto.
Qed.

(** The loop returns, with enough fuel, and what it returns is right. *)
Lemma bfs_loop_correct fuel : ∀ d V A B,
  bfs_inv d V A B →
  (length (A ++ B) + size (all_targets g ∖ V) < fuel)%nat →
  ∃ r, bfs_loop fuel g target max_depth V (A ++ B) = Returned r ∧ bfs_post r.
Proof.
  induction fuel as [|fuel IH]; intros d V A B Hinv Hfuel; [lia|].
  assert (Hnorm : ∃ d' A' B', A' ++ B' = A ++ B ∧ bfs_inv d' V A' B' ∧
                              (A' = [] → B' = [])).
  { destruct A as [|a A].
    - exists (S d), B, []. rewrite app_nil_r. split; [done|].
      split; [by apply inv_shift|done].
    - exists d, (a :: A), B. split; [done|]. split; [done|]. intros [=]. }
  destruct Hnorm as (d' & A' & B' & Heq & Hinv' & Hempty).
  rewrite <- Heq in *. clear Heq Hinv A B d.
  destruct A' as [|[u p] A'].
  { rewrite (Hempty eq_refl) in *. exists None. split; [done|].
    intros n _. by apply (inv_empty_unreachable _ _ Hinv'). }
  clear Hempty. cbn [app bfs_loop].
  destruct (inv_A _ _ _ _ Hinv' u p (list_elem_of_here _ _))
    as (Hwalk & Hlen & HuV & Hfar).
  destruct (decide (Z.of_nat (length p) > max_depth)) as [Hdeep|Hok].
  - exists None. split.
    + apply bfs_loop_drain.
      * intros u' p' [Hin|Hin]%elem_of_app.
        -- destruct (inv_A _ _ _ _ Hinv' u' p' (list_elem_of_further _ _ _ Hin))
             as (_ & Hl & _). lia.
        -- destruct (inv_B _ _ _ _ Hinv' u' p' Hin) as (_ & Hl & _). lia.
      * cbn in Hfuel. lia.
    + intros n Hn. apply (inv_target_far _ _ _ _ Hinv'). lia.
  - pose proof (scan_outgoing_spec target p (get_outgoing g u None) V
                                   (A' ++ B')) as Hscan.
    destruct (scan_outgoing target p (get_outgoing g u None) V (A' ++ B'))
      as [p'|V' Q'].
    + destruct Hscan as [-> Ht]. exists (Some (p ++ [target])).
      split; [done|]. split; [|split].
      * econstructor; [done|by apply edge_targets].
      * rewrite length_app. cbn [length]. lia.
      * intros n Hh. rewrite length_app. cbn [length].
        destruct (decide (n ≤ d')%nat) as [Hle|]; [|lia].
        by destruct (inv_target_far _ _ _ _ Hinv' n Hle).
    + destruct Hscan as (Hnt & new & -> & Hnew & HV & Hall & Hsize).
      rewrite <- app_assoc. apply (IH d').
      * by apply (inv_scanned d' V u p).
      * rewrite app_assoc, Hsize.
        -- cbn in Hfuel. lia.
        -- intros x (rel & -> & Hrel)%list_elem_of_fmap.
           by apply (elem_of_all_targets g u).
Qed.

End bfs.

(** C1. [shortest_path(source_id, target_id, max_depth)] returns
    [[source_id]] when the two ids are equal; otherwise, when a directed
    path of at most [max_depth] hops along outgoing relationships exists,
    it returns such a path whose hop count is the least hop distance from
    source to target; and it returns [None] when no directed path of at
    most [max_depth] hops exists.  The loop always ends. *)
Theorem shortest_path_spec (g : KnowledgeGraph) (source_id target : string)
    (max_depth : Z) :
  (source_id = target →
     shortest_path g source_id target max_depth = Returned (Some [source_id])) ∧
  (source_id ≠ target →
   (∃ n : nat, Z.of_nat n ≤ max_depth ∧ hops g source_id n target) →
     ∃ p, shortest_path g source_id target max_depth = Returned (Some p) ∧
          walk g source_id p target ∧
          hops g source_id (length p - 1) target ∧
          hop_count p ≤ max_depth ∧
          ∀ n, hops g source_id n target → (length p - 1 ≤ n)%nat) ∧
  (source_id ≠ target →
   ¬ (∃ n : nat, Z.of_nat n ≤ max_depth ∧ hops g source_id n target) →
     shortest_path g source_id target max_depth = Returned None).
Proof.
  unfold shortest_path, shortest_path_fuel.
  split; [intros Heq; by rewrite decide_True|].
  assert (Hrun : source_id ≠ target →
    ∃ r, bfs_loop (bfs_fuel g) g target max_depth {[source_id]}
                  [(source_id, [source_id])] = Returned r ∧
         bfs_post g source_id target max_depth r).
  { intros Hne.
    apply (bfs_loop_correct g source_id target max_depth (bfs_fuel g) 0%nat
             {[source_id]} [(source_id, [source_id])] []).
    - by apply inv_init.
    - cbn [app length]. unfold bfs_fuel.
      assert (size (all_targets g ∖ {[source_id]}) ≤ size (all_targets g))%nat.
      { apply subseteq_size. intros x Hx.
        by apply elem_of_difference in Hx as [? _]. }
      lia. }
  split; intros Hne Hpath; rewrite decide_False by done;
    destruct (Hrun Hne) as ([p|] & -> & Hpost); cbn in Hpost.
  - destruct Hpost as (Hwalk & Hlen & Hmin). exists p. split; [done|].
    split; [done|]. split; [by apply walk_hops|]. split; [exact Hlen|done].
  - destruct Hpath as (n & Hn & Hh). by destruct (Hpost n Hn).
  - destruct Hpost as (Hwalk & Hlen & Hmin). exfalso. apply Hpath.
    exists (length p - 1)%nat. split; [|by apply walk_hops].
    pose proof (walk_length _ _ _ _ Hwalk). lia.
  - done.
Qed.

Lemma example_edge (r : Relationship) :
  r ∈ get_outgoing build_example_graph (source_id r) None →
  edge build_example_graph (source_id r) (target_id r).
Proof. intros Hin. by exists r. Qed.

Lemma shortest_path_spec_witness :
  "project-mercury" ≠ "sarah" ∧
  (∃ n : nat, Z.of_nat n ≤ 5 ∧
              hops build_example_graph "project-mercury" n "sarah") ∧
  ∃ p, shortest_path build_example_graph "project-mercury" "sarah" 5
       = Returned (Some p) ∧
       walk build_example_graph "project-mercury" p "sarah" ∧
       hops build_example_graph "project-mercury" (length p - 1) "sarah" ∧
       hop_count p ≤ 5 ∧
       ∀ n, hops build_example_graph "project-mercury" n "sarah" →
            (length p - 1 ≤ n)%nat.
Proof.
  assert (Hne : "project-mercury" ≠ "sarah") by discriminate.
  assert (Hpath : ∃ n : nat, Z.of_nat n ≤ 5 ∧
            hops build_example_graph "project-mercury" n "sarah").
  { exists 4%nat. split; [lia|].
    apply (hops_S _ _ _ "budget-q3");
      [|apply (example_edge (mkRelationship "rel-3" "budget-q3" "sarah" APPROVED_BY));
        vm_compute; apply list_elem_of_here].
    apply (hops_S _ _ _ "supply-issue-1");
      [|apply (example_edge (mkRelationship "rel-2" "supply-issue-1" "budget-q3" AFFECTS));
        vm_compute; apply list_elem_of_here].
    apply (hops_S _ _ _ "project-apollo");
      [|apply (example_edge (mkRelationship "rel-1" "project-apollo" "supply-issue-1" DELAYED_BY));
        vm_compute; apply list_elem_of_here].
    apply (hops_S _ _ _ "project-mercury");
      [|apply (example_edge (mkRelationship "rel-6" "project-mercury" "project-apollo" DEPENDS_ON));
        vm_compute; apply list_elem_of_here].
    apply hops_O. }
  split; [exact Hne|]. split; [exact Hpath|].
  exact (proj1 (proj2 (shortest_path_spec build_example_graph
                         "project-mercury" "sarah" 5)) Hne Hpath).
Defined.

(* --------------------------------------------------------------------- *)
(** ** Further operations and properties *)
(* --------------------------------------------------------------------- *)

(** [get_entities_by_type]: [self._by_type.get(entity_type, [])] *)
Definition get_entities_by_type (g : KnowledgeGraph) (t : string)
  : list Entity :=
  default [] (_by_type g !! t).

(** The entities handed to [add_entity] by a call sequence, in call order. *)
Definition added_entities (cs : list call) : list Entity :=
  omap (λ c, match c with AddEntity e => Some e | AddRelationship _ => None end) cs.

(** [traverse] never reads [max_depth], and every path it returns starts
    at [start_id] and has one node more than the pattern has types. *)
Theorem traverse_shape (g : KnowledgeGraph) (start_id : string)
    (path_pattern : list RelationType) (max_depth max_depth' : Z) :
  traverse g start_id path_pattern max_depth
  = traverse g start_id path_pattern max_depth' ∧
  ∀ p, p ∈ traverse g start_id path_pattern max_depth →
       head p = Some start_id ∧ length p = S (length path_pattern).
Proof.
  split; [apply traverse_depth_irrelevant|].
  revert start_id max_depth. induction path_pattern as [|t pat IH];
    intros s d p Hp.
  - apply list_elem_of_singleton in Hp as ->. done.
  - apply elem_of_traverse_cons in Hp as (rel & q & _ & Hq & ->).
    destruct (IH _ _ _ Hq) as [_ Hlen]. cbn. by rewrite Hlen.
Qed.

Lemma run_calls_snoc g cs c :
  run_calls g (cs ++ [c]) = run_call (run_calls g cs) c.
Proof. unfold run_calls. by rewrite fold_left_app. Qed.

Lemma added_entities_snoc cs c :
  added_entities (cs ++ [c])
  = added_entities cs
    ++ match c with AddEntity e => [e] | AddRelationship _ => [] end.
Proof.
  unfold added_entities. rewrite omap_app. f_equal. by destruct c.
Qed.

(** [get_entity(id)] returns the entity most recently added under that id,
    and [None] when none was; adding relationships does not matter. *)
Theorem get_entity_latest (cs : list call) (id : string) :
  get_entity (run_calls empty_graph cs) id
  = last (filter (λ e, entity_id e = id) (added_entities cs)).
Proof.
  induction cs as [|c cs IH] using rev_ind.
  - cbn. unfold get_entity. cbn. by rewrite lookup_empty.
  - rewrite run_calls_snoc, added_entities_snoc, filter_app.
    destruct c as [e|r]; cbn [run_call].
    + unfold get_entity in *. cbn [add_entity _entities].
      rewrite filter_cons, filter_nil.
      destruct (decide (entity_id e = id)) as [<-|Hne].
      * rewrite lookup_insert_eq. by rewrite last_snoc.
      * rewrite lookup_insert_ne by done. by rewrite app_nil_r.
    + rewrite filter_nil, app_nil_r. exact IH.
Qed.

(** [get_entities_by_type(t)] lists every entity ever added with type [t],
    in insertion order, including entities later replaced in [_entities]
    by a new entity with the same id. *)
Theorem entities_by_type_history (cs : list call) (t : string) :
  get_entities_by_type (run_calls empty_graph cs) t
  = filter (λ e, entity_type e = t) (added_entities cs).
Proof.
  unfold get_entities_by_type. induction cs as [|c cs IH] using rev_ind.
  - cbn. by rewrite lookup_empty.
  - rewrite run_calls_snoc, added_entities_snoc, filter_app.
    destruct c as [e|r]; cbn [run_call add_entity add_relationship _by_type].
    + rewrite dd_append_lookup, filter_cons, filter_nil.
      destruct (decide (entity_type e = t)) as [<-|Hne].
      * by rewrite IH.
      * by rewrite IH, app_nil_r.
    + by rewrite filter_nil, app_nil_r.
Qed.

(** With [max_depth <= 0] and distinct ids, [shortest_path] finds nothing,
    whatever the graph: the start entry is already too deep. *)
Theorem shortest_path_no_depth (g : KnowledgeGraph) (source target : string)
    (max_depth : Z) :
  max_depth ≤ 0 → source ≠ target →
  shortest_path g source target max_depth = Returned None.
Proof.
  intros Hd Hne. unfold shortest_path, shortest_path_fuel, bfs_fuel.
  rewrite decide_False by done. cbn [Nat.add bfs_loop length].
  rewrite decide_True by lia. done.
Qed.

Lemma shortest_path_no_depth_witness :
  0 ≤ 0 ∧ "bob" ≠ "sarah" ∧
  shortest_path build_example_graph "bob" "sarah" 0 = Returned None.
Proof.
  assert (Hne : "bob" ≠ "sarah") by discriminate.
  split; [lia|]. split; [exact Hne|].
  apply (shortest_path_no_depth build_example_graph "bob" "sarah" 0);
    [lia|exact Hne].
Defined.

(** [find_all_connected] with [max_hops <= 0] is just [{start_id}], and
    raising [max_hops] never loses an entity. *)
Theorem find_all_connected_grows (g : KnowledgeGraph) (start_id : string)
    (max_hops max_hops' : Z) :
  (max_hops ≤ 0 → find_all_connected g start_id max_hops = {[start_id]}) ∧
  (max_hops ≤ max_hops' →
   find_all_connected g start_id max_hops
   ⊆ find_all_connected g start_id max_hops').
Proof.
  split.
  - intros Hle. unfold find_all_connected.
    replace (Z.to_nat max_hops) with 0%nat by lia. done.
  - intros Hle x. unfold find_all_connected.
    rewrite (proj1 (rounds_invariant g start_id (Z.to_nat max_hops)) x).
    rewrite (proj1 (rounds_invariant g start_id (Z.to_nat max_hops')) x).
    intros (m & Hm & Hw). exists m. split; [lia|done].
Qed.

Lemma find_all_connected_grows_witness :
  1 ≤ 2 ∧
  find_all_connected build_example_graph "bob" 1
  ⊆ find_all_connected build_example_graph "bob" 2.
Proof.
  split; [lia|].
  apply (proj2 (find_all_connected_grows build_example_graph "bob" 1 2)). lia.
Defined.

Lemma adjacent_sym g u v : indexed g → adjacent g u v → adjacent g v u.
Proof.
  intros Hi [(rel & Hin & Ht)|(rel & Hin & Hs)].
  - right. exists rel. rewrite indexed_outgoing in Hin by done.
    rewrite indexed_incoming by done. cbn in *.
    apply list_elem_of_filter in Hin as [Hs Hin]. split; [|done].
    apply list_elem_of_filter. by split.
  - left. exists rel. rewrite indexed_incoming in Hin by done.
    rewrite indexed_outgoing by done. cbn in *.
    apply list_elem_of_filter in Hin as [Ht Hin]. split; [|done].
    apply list_elem_of_filter. by split.
Qed.

Lemma within_cons g u v w n :
  adjacent g u v → within g v n w → within g u (S n) w.
Proof.
  intros Ha Hw. induction Hw as [|n x y Hw IH Hxy].
  - econstructor; [constructor|done].
  - by econstructor.
Qed.

Lemma within_sym g u v n : indexed g → within g u n v → within g v n u.
Proof.
  intros Hi Hw. induction Hw as [|n x y Hw IH Hxy].
  - constructor.
  - apply (within_cons g y x); [by apply adjacent_sym|done].
Qed.

(** On a graph with consistent indexes, being within [max_hops] is
    symmetric: [b] is in the neighbourhood of [a] exactly when [a] is in
    the neighbourhood of [b]. *)
Theorem find_all_connected_symmetric (g : KnowledgeGraph) (a b : string)
    (max_hops : Z) :
  indexed g →
  (b ∈ find_all_connected g a max_hops ↔ a ∈ find_all_connected g b max_hops).
Proof.
  intros Hi. unfold find_all_connected.
  rewrite (proj1 (rounds_invariant g a (Z.to_nat max_hops)) b).
  rewrite (proj1 (rounds_invariant g b (Z.to_nat max_hops)) a).
  split; intros (m & Hm & Hw); exists m; (split; [done|by apply within_sym]).
Qed.

Lemma find_all_connected_symmetric_witness :
  indexed build_example_graph ∧
  ("sarah" ∈ find_all_connected build_example_graph "bob" 1 ↔
   "bob" ∈ find_all_connected build_example_graph "sarah" 1).
Proof.
  assert (H : indexed build_example_graph)
    by apply run_calls_indexed, indexed_empty.
  split; [exact H|].
  exact (find_all_connected_symmetric build_example_graph "bob" "sarah" 1 H).
Defined.

Lemma hops_within g u v n : hops g u n v → within g u n v.
Proof.
  induction 1 as [|n x y Hh IH He]; [constructor|].
  econstructor; [done|]. by left.
Qed.

(** Whatever path [shortest_path] returns, its target lies in the
    neighbourhood [find_all_connected] computes for the source with as
    many hops as the path has. *)
Theorem shortest_path_in_neighbourhood (g : KnowledgeGraph)
    (source target : string) (max_depth : Z) (p : list string) :
  shortest_path g source target max_depth = Returned (Some p) →
  target ∈ find_all_connected g source (hop_count p).
Proof.
  intros Hsp. unfold shortest_path, shortest_path_fuel in Hsp.
  assert (Hw : walk g source p target).
  { destruct (decide (source = target)) as [<-|Hne].
    - inversion Hsp; subst p. constructor.
    - destruct (bfs_loop_correct g source target max_depth (bfs_fuel g) 0%nat
                  {[source]} [(source, [source])] []) as (r & Hr & Hpost).
      + by apply inv_init.
      + cbn [app length]. unfold bfs_fuel.
        assert (size (all_targets g ∖ {[source]}) ≤ size (all_targets g))%nat.
        { apply subseteq_size. intros x Hx.
          by apply elem_of_difference in Hx as [? _]. }
        lia.
      + cbn [app] in Hr. rewrite Hr in Hsp. inversion Hsp; subst r.
        by destruct Hpost as (? & _). }
  unfold find_all_connected, hop_count.
  apply (proj1 (rounds_invariant g source _) target).
  exists (length p - 1)%nat. pose proof (walk_length _ _ _ _ Hw).
  split; [lia|]. by apply hops_within, walk_hops.
Qed.

Lemma shortest_path_in_neighbourhood_witness :
  shortest_path build_example_graph "project-mercury" "sarah" 5
  = Returned (Some ["project-mercury"; "project-apollo"; "supply-issue-1";
                    "budget-q3"; "sarah"]) ∧
  "sarah" ∈ find_all_connected build_example_graph "project-mercury" 4.
Proof.
  split; [exact demo_shortest_path|].
  exact (shortest_path_in_neighbourhood build_example_graph
           "project-mercury" "sarah" 5 _ demo_shortest_path).
Defined.

End KnowledgeGraph.

(* ===================================================================== *)
(** * Python values shared by vector_search.py and hybrid_retrieval.py *)
(* ===================================================================== *)

Module Py.

(** The exceptions the modelled code can raise. *)
Inductive exn :=
| ValueError | ZeroDivisionError | KeyError | ConnectionError | RuntimeError
| OverflowError.

(** A call either returns a value or raises. *)
Inductive result (A : Type) :=
| Ok (a : A)
| Raise (e : exn).
Arguments Ok {A} a.
Arguments Raise {A} e.

(** Sequencing: an exception raised by the first call is propagated
    (nothing in the modelled files catches one). *)
#[global] Instance result_bind : MBind result := λ A B k r,
  match r with
  | Ok a => k a
  | Raise e => Raise e
  end.

Definition returns {A} (r : result A) : Prop := ∃ a, r = Ok a.

(** Python [float] arithmetic, kept abstract: the operations the code uses
    on floats.  [f_div] is the quotient by a non-zero divisor and [f_sqrt]
    the root of a non-negative number; division by zero and roots of
    negative numbers are raised by [py_div] and [math_sqrt] below, before
    these are applied.  No algebraic law is built in; each theorem names
    the laws it relies on. *)
Class FloatOps (F : Type) := {
  f_zero : F;
  f_one : F;
  f_add : F → F → F;
  f_mul : F → F → F;
  f_div : F → F → F;
  f_sqrt : F → F;
  f_of_int : Z → F;
  f_eqb : F → F → bool;
  f_ltb : F → F → bool
}.

Section float.
Context {F : Type} `{FloatOps F}.

(** [x / y] on floats *)
Definition py_div (x y : F) : result F :=
  if f_eqb y f_zero then Raise ZeroDivisionError else Ok (f_div x y).

(** [math.sqrt(x)] *)
Definition math_sqrt (x : F) : result F :=
  if f_ltb x f_zero then Raise ValueError else Ok (f_sqrt x).

(** [sum(xs)]: left to right from 0 *)
Definition py_sum (xs : list F) : F := fold_left f_add xs f_zero.

(** An [int] operand of float arithmetic is converted first: integers of
    magnitude below [float_limit] round to a float (to nearest, ties to
    even; [f_of_int] is that float), the others raise [OverflowError].
    The limit is the least integer that rounds past the largest float. *)
Definition float_limit : Z := 2 ^ 1024 - 2 ^ 970.

Definition float_of_int (n : Z) : result F :=
  if decide (Z.abs n < float_limit) then Ok (f_of_int n)
  else Raise OverflowError.

(** [x != x]: of all floats only NaN differs from itself. *)
Definition is_nan (x : F) : bool := negb (f_eqb x x).

(** Not NaN and not below zero. *)
Definition not_negative (x : F) : Prop :=
  is_nan x = false ∧ f_ltb x f_zero = false.

End float.

(** [sorted(l, key=key, reverse=True)] and [l.sort(key=key, reverse=True)]:
    the library sort is stable and compares keys with [<] only; it is
    modelled by the stable insertion sort that puts larger keys first. *)
Section sorting.
Context {A K : Type} (ltb : K → K → bool) (key : A → K).

Fixpoint insert_desc (x : A) (l : list A) : list A :=
  match l with
  | [] => [x]
  | y :: l' =>
    if ltb (key x) (key y) then y :: insert_desc x l' else x :: y :: l'
  end.

Definition sorted_desc (l : list A) : list A := foldr insert_desc [] l.

(** [a] may stand before [b] in a list sorted largest first. *)
Definition not_below (a b : A) : Prop := ltb (key a) (key b) = false.

End sorting.

(** Insertion-ordered dictionaries with string keys: [d[key] = v] keeps
    the position of a key already present and appends a new one;
    [d.get(key)]; [d.items()] is the list itself. *)
Fixpoint dict_set {V} (d : list (string * V)) (key : string) (v : V)
  : list (string * V) :=
  match d with
  | [] => [(key, v)]
  | (k, v') :: d' =>
    if decide (k = key) then (k, v) :: d' else (k, v') :: dict_set d' key v
  end.

Fixpoint dict_get {V} (d : list (string * V)) (key : string) : option V :=
  match d with
  | [] => None
  | (k, v) :: d' => if decide (k = key) then Some v else dict_get d' key
  end.

(** [l[:n]] for an integer [n], negative [n] counting from the end. *)
Definition slice_to {A} (l : list A) (n : Z) : list A :=
  if decide (n < 0) then take (Z.to_nat (Z.of_nat (length l) + n)) l
  else take (Z.to_nat n) l.

(** A result list is sorted by [key] in nonincreasing order: no later
    element has a key above that of an earlier one. *)
Definition nonincreasing {A K} (ltb : K → K → bool) (key : A → K)
    (l : list A) : Prop :=
  ∀ (i j : nat) a b, (i < j)%nat → l !! i = Some a → l !! j = Some b →
    ltb (key a) (key b) = false.

(** The [rank] fields are 1, 2, 3, ... in list order. *)
Definition consecutive_ranks {A} (rank : A → Z) (l : list A) : Prop :=
  ∀ (i : nat) a, l !! i = Some a → rank a = Z.of_nat i + 1.

(** Exact rational arithmetic as an instance of the float operations: the
    model in which the laws used below are checked. *)
Definition Qsqrt (q : Q) : Q :=
  Qmake (Z.sqrt (Qnum q * Zpos (Qden q))) (Qden q).

#[global] Instance Q_float : FloatOps Q := {|
  f_zero := 0%Q;
  f_one := 1%Q;
  f_add := Qplus;
  f_mul := Qmult;
  f_div := Qdiv;
  f_sqrt := Qsqrt;
  f_of_int := inject_Z;
  f_eqb := Qeq_bool;
  f_ltb := λ x y, negb (Qle_bool y x)
|}.

(** ** Laws of the rational instance *)

Lemma Q_ltb_false (x y : Q) : f_ltb x y = false ↔ (y <= x)%Q.
Proof. cbn. rewrite negb_false_iff. apply Qle_bool_iff. Qed.

Lemma Q_ltb_true (x y : Q) : f_ltb x y = true ↔ (x < y)%Q.
Proof.
  cbn. rewrite negb_true_iff, <- not_true_iff_false, Qle_bool_iff.
  split; [apply Qnot_le_lt|apply Qlt_not_le].
Qed.

Lemma Q_zero_not_neg : f_ltb (f_zero : Q) f_zero = false.
Proof. reflexivity. Qed.

Lemma Q_square_not_neg (a : Q) : f_ltb (f_mul a a) f_zero = false.
Proof. apply Q_ltb_false. unfold Qle, Qmult; cbn. nia. Qed.

Lemma Q_add_not_neg (x y : Q) :
  f_ltb x f_zero = false → f_ltb y f_zero = false →
  f_ltb (f_add x y) f_zero = false.
Proof.
  rewrite !Q_ltb_false. intros. cbn.
  replace 0%Q with (0 + 0)%Q by reflexivity. by apply Qplus_le_compat.
Qed.

Lemma Q_mul_nonzero (x y : Q) :
  f_eqb x f_zero = false → f_eqb y f_zero = false →
  f_eqb (f_mul x y) f_zero = false.
Proof.
  cbn. intros Hx%Qeq_bool_neq Hy%Qeq_bool_neq.
  destruct (Qeq_bool (x * y) 0) eqn:E; [|done].
  apply Qeq_bool_eq, Qmult_integral in E. tauto.
Qed.

Lemma Q_ltb_asym (x y : Q) : f_ltb x y = true → f_ltb y x = false.
Proof. rewrite Q_ltb_true, Q_ltb_false. apply Qlt_le_weak. Qed.

Lemma Q_geb_trans (x y z : Q) :
  f_ltb x y = false → f_ltb y z = false → f_ltb x z = false.
Proof. rewrite !Q_ltb_false. intros. by apply Qle_trans with y. Qed.

Lemma Q_of_int_zero (n : Z) : f_eqb (f_of_int n : Q) f_zero = true ↔ n = 0.
Proof. cbn. rewrite Qeq_bool_iff. unfold Qeq, inject_Z; cbn. lia. Qed.

Lemma Q_not_nan (x : Q) : is_nan x = false.
Proof. unfold is_nan. cbn. by rewrite Qeq_bool_refl. Qed.

Lemma Q_geb_trans_number (x y z : Q) :
  is_nan y = false →
  f_ltb x y = false → f_ltb y z = false → f_ltb x z = false.
Proof. intros _. apply Q_geb_trans. Qed.

Lemma Q_of_int_zero_in_range (n : Z) :
  Z.abs n < float_limit → f_eqb (f_of_int n : Q) f_zero = true ↔ n = 0.
Proof. intros _. apply Q_of_int_zero. Qed.

Lemma Q_zero_not_negative : not_negative (f_zero : Q).
Proof. split; [apply Q_not_nan|apply Q_zero_not_neg]. Qed.

Lemma Q_add_not_negative (x y : Q) :
  not_negative x → not_negative y → not_negative (f_add x y).
Proof.
  intros [_ Hx] [_ Hy]. split; [apply Q_not_nan|by apply Q_add_not_neg].
Qed.

Lemma Q_reciprocal_not_negative (n : Z) :
  0 < n < float_limit → not_negative (f_div f_one (f_of_int n) : Q).
Proof.
  intros [Hn _]. split; [apply Q_not_nan|]. apply Q_ltb_false. cbn.
  apply Qle_shift_div_l; [unfold Qlt, inject_Z; cbn; lia|].
  unfold Qle, inject_Z; cbn. lia.
Qed.

Lemma float_limit_large : 2 ^ 1023 < float_limit.
Proof. unfold float_limit. vm_compute. reflexivity. Qed.

(** ** The stable descending sort *)

Section sorting_facts.
Context {A K : Type} (ltb : K → K → bool) (key : A → K).
(** The keys on which the comparison is consistent: for floats, all but
    NaN. *)
Context (comparable : K → Prop).
Hypothesis ltb_asym : ∀ x y, ltb x y = true → ltb y x = false.
Hypothesis geb_trans :
  ∀ x y z, comparable y →
           ltb x y = false → ltb y z = false → ltb x z = false.

Lemma insert_desc_perm x l : insert_desc ltb key x l ≡ₚ x :: l.
Proof.
  induction l as [|y l IH]; cbn; [done|].
  destruct (ltb (key x) (key y)); [|done].
  rewrite IH. apply Permutation_swap.
Qed.

Lemma sorted_desc_perm l : sorted_desc ltb key l ≡ₚ l.
Proof.
  induction l as [|x l IH]; cbn; [done|].
  rewrite insert_desc_perm. by rewrite IH.
Qed.

Lemma insert_desc_sorted x l :
  Forall (λ a, comparable (key a)) l →
  StronglySorted (not_below ltb key) l →
  StronglySorted (not_below ltb key) (insert_desc ltb key x l).
Proof.
  induction l as [|y l IH]; intros Hc Hs; cbn.
  - constructor; [constructor|constructor].
  - apply StronglySorted_inv in Hs as [Hl Hy].
    apply Forall_cons in Hc as [Hcy Hc].
    destruct (ltb (key x) (key y)) eqn:Hxy.
    + constructor; [by apply IH|].
      rewrite insert_desc_perm. constructor; [|done].
      by apply ltb_asym.
    + constructor; [by constructor|]. constructor; [done|].
      rewrite Forall_forall in Hy |- *. intros z Hz.
      unfold not_below in *. by apply geb_trans with (key y), Hy.
Qed.

Lemma sorted_desc_sorted l :
  Forall (λ a, comparable (key a)) l →
  StronglySorted (not_below ltb key) (sorted_desc ltb key l).
Proof.
  induction l as [|x l IH]; intros Hc; [constructor|].
  apply Forall_cons in Hc as [_ Hc].
  change (sorted_desc ltb key (x :: l))
    with (insert_desc ltb key x (sorted_desc ltb key l)).
  apply insert_desc_sorted; [|by apply IH].
  by rewrite sorted_desc_perm.
Qed.

End sorting_facts.

Lemma StronglySorted_take {A} (R : A → A → Prop) n l :
  StronglySorted R l → StronglySorted R (take n l).
Proof.
  intros Hs. revert n. induction Hs as [|x l Hs IH Hx]; intros [|n]; cbn;
    try constructor; [apply IH|].
  rewrite Forall_forall in Hx |- *. intros y Hy. apply Hx.
  by apply (subseteq_take n l).
Qed.

(** ** Insertion-ordered dictionaries *)

Lemma dict_get_set {V} (d : list (string * V)) key v x :
  dict_get (dict_set d key v) x
  = if decide (key = x) then Some v else dict_get d x.
Proof.
  induction d as [|[k v'] d IH]; cbn.
  - done.
  - destruct (decide (k = key)) as [->|Hk]; cbn.
    + destruct (decide (key = x)); done.
    + rewrite IH. destruct (decide (k = x)) as [->|]; [|done].
      by rewrite decide_False.
Qed.

Lemma dict_get_None {V} (d : list (string * V)) x :
  dict_get d x = None ↔ x ∉ map fst d.
Proof.
  induction d as [|[k v] d IH]; cbn.
  - split; [intros _; apply not_elem_of_nil|done].
  - rewrite elem_of_cons. destruct (decide (k = x)) as [->|Hk].
    + split; [done|]. intros Hn. destruct Hn. by left.
    + rewrite IH. split; [|tauto]. intros Hn [->|?]; done.
Qed.

Lemma dict_get_elem_of {V} (d : list (string * V)) x v :
  (x, v) ∈ d → NoDup (map fst d) → dict_get d x = Some v.
Proof.
  induction d as [|[k v'] d IH]; cbn; intros Hin Hnd.
  - by apply elem_of_nil in Hin.
  - apply NoDup_cons in Hnd as [Hk Hnd].
    apply elem_of_cons in Hin as [[= -> ->]|Hin].
    + by rewrite decide_True.
    + rewrite decide_False; [by apply IH|]. intros ->. apply Hk.
      apply list_elem_of_fmap. by exists (x, v).
Qed.

Lemma dict_set_keys {V} (d : list (string * V)) key v :
  map fst (dict_set d key v)
  = if decide (key ∈ map fst d) then map fst d else map fst d ++ [key].
Proof.
  induction d as [|[k v'] d IH]; cbn.
  - rewrite decide_False; [done|apply not_elem_of_nil].
  - destruct (decide (k = key)) as [->|Hk]; cbn.
    + rewrite decide_True; [done|apply list_elem_of_here].
    + rewrite IH. destruct (decide (key ∈ map fst d)) as [Hin|Hout].
      * rewrite decide_True; [done|by apply list_elem_of_further].
      * rewrite decide_False; [done|].
        rewrite elem_of_cons. intros [->|?]; done.
Qed.

Lemma dict_set_NoDup {V} (d : list (string * V)) key v :
  NoDup (map fst d) → NoDup (map fst (dict_set d key v)).
Proof.
  intros Hnd. rewrite dict_set_keys. case_decide; [done|].
  apply NoDup_app. split; [done|]. split; [|apply NoDup_singleton].
  intros x Hx ->%list_elem_of_singleton. done.
Qed.

Lemma py_sum_snoc `{FloatOps F} (l : list F) x :
  py_sum (l ++ [x]) = f_add (py_sum l) x.
Proof. unfold py_sum. by rewrite fold_left_app. Qed.

Lemma StronglySorted_lookup {A} (R : A → A → Prop) l :
  StronglySorted R l →
  ∀ (i j : nat) a b, (i < j)%nat → l !! i = Some a → l !! j = Some b → R a b.
Proof.
  induction 1 as [|x l Hs IH Hx]; intros i j a b Hij Hi Hj; [done|].
  destruct j as [|j]; [lia|]. cbn in Hj. destruct i as [|i]; cbn in Hi.
  - inversion Hi; subst a. rewrite Forall_forall in Hx. apply Hx.
    by eapply list_elem_of_lookup_2.
  - apply (IH i j); [lia|done|done].
Qed.

Lemma slice_to_take {A} (l : list A) n : ∃ m, slice_to l n = take m l.
Proof. unfold slice_to. case_decide; eauto. Qed.

Lemma slice_to_length {A} (l : list A) n :
  0 ≤ n → Z.of_nat (length (slice_to l n)) ≤ n.
Proof.
  intros Hn. unfold slice_to. rewrite decide_False by lia.
  rewrite length_take. lia.
Qed.

End Py.

(* ===================================================================== *)
(** * vector_search.py *)
(* ===================================================================== *)

Module VectorSearch.
Import Py.

Section store.
Context {F : Type} `{FloatOps F}.
(** The values of a metadata dictionary ([Dict[str, Any]]), compared with
    [==] / [!=]. *)
Context {Value : Type} `{EqDecision Value}.

(** [@dataclass Document] *)
Record Document := mkDocument {
  doc_id : string;
  content : string;
  embedding : list F;
  metadata : gmap string Value;
  context_prefix : string
}.

(** [@dataclass SearchResult] *)
Record SearchResult := mkSearchResult {
  document : Document;
  similarity_score : F;
  rank : Z
}.

(** [SimpleVectorStore._documents]: a dictionary iterated with
    [.values()], hence kept in insertion order. *)
Definition store := list (string * Document).

Definition add_document (s : store) (doc : Document) : store :=
  dict_set s (doc_id doc) doc.

Definition add_documents (s : store) (docs : list Document) : store :=
  fold_left add_document docs s.

(** [SimpleVectorStore._cosine_similarity] *)
Definition _cosine_similarity (vec_a vec_b : list F) : result F :=
  if decide (length vec_a ≠ length vec_b) then Raise ValueError
  else
    let dot_product := py_sum (zip_with f_mul vec_a vec_b) in
    magnitude_a ← math_sqrt (py_sum (map (λ a, f_mul a a) vec_a));
    magnitude_b ← math_sqrt (py_sum (map (λ b, f_mul b b) vec_b));
    if f_eqb magnitude_a f_zero || f_eqb magnitude_b f_zero then Ok f_zero
    else py_div dot_product (f_mul magnitude_a magnitude_b).

(** [SimpleVectorStore._matches_filter] *)
Definition _matches_filter (metadata filter_dict : gmap string Value) : bool :=
  forallb (λ kv, bool_decide (metadata !! kv.1 = Some kv.2))
          (map_to_list filter_dict).

(** Truth value of an [Optional[Dict]] in [if metadata_filter:]. *)
Definition dict_truthy (d : option (gmap string Value)) : bool :=
  match d with
  | None => false
  | Some f => negb (bool_decide (f = ∅))
  end.

(** The [continue] test of the loop over the documents. *)
Definition skipped (metadata_filter : option (gmap string Value))
    (doc : Document) : bool :=
  match metadata_filter with
  | Some f => dict_truthy metadata_filter && negb (_matches_filter (metadata doc) f)
  | None => false
  end.

(** The [for doc in self._documents.values()] loop building [results]. *)
Fixpoint score_documents (query_embedding : list F)
    (metadata_filter : option (gmap string Value))
    (docs : list Document) : result (list (Document * F)) :=
  match docs with
  | [] => Ok []
  | doc :: docs' =>
    if skipped metadata_filter doc then
      score_documents query_embedding metadata_filter docs'
    else
      similarity ← _cosine_similarity query_embedding (embedding doc);
      results ← score_documents query_embedding metadata_filter docs';
      Ok ((doc, similarity) :: results)
  end.

(** [SimpleVectorStore.similarity_search] *)
Definition similarity_search (s : store) (query_embedding : list F)
    (top_k : Z) (metadata_filter : option (gmap string Value))
  : result (list SearchResult) :=
  results ← score_documents query_embedding metadata_filter (map snd s);
  Ok (imap (λ i ds, mkSearchResult ds.1 ds.2 (Z.of_nat i + 1))
           (slice_to (sorted_desc f_ltb snd results) top_k)).

(** The quantities named in the docstring of [_cosine_similarity]. *)
Definition dot (vec_a vec_b : list F) : F := py_sum (zip_with f_mul vec_a vec_b).

Definition magnitude (v : list F) : F :=
  f_sqrt (py_sum (map (λ a, f_mul a a) v)).

(** A document satisfies a filter: every filter key is present in its
    metadata with an equal value. *)
Definition satisfies (metadata_filter : option (gmap string Value))
    (doc : Document) : Prop :=
  ∀ f, metadata_filter = Some f →
    ∀ k v, f !! k = Some v → metadata doc !! k = Some v.

End store.

Arguments Document F Value : clear implicits.
Arguments SearchResult F Value : clear implicits.
Arguments store F Value : clear implicits.

(* --------------------------------------------------------------------- *)
(** ** Properties *)
(* --------------------------------------------------------------------- *)

Section cosine.
Context {F : Type} `{FloatOps F}.

(** The laws of float arithmetic the guard analysis relies on: zero,
    squares and sums of non-negative numbers are not below zero, and the
    product of two non-zero roots is not zero. *)
Hypothesis zero_not_neg : f_ltb f_zero f_zero = false.
Hypothesis square_not_neg : ∀ a, f_ltb (f_mul a a) f_zero = false.
Hypothesis add_not_neg : ∀ x y,
  f_ltb x f_zero = false → f_ltb y f_zero = false →
  f_ltb (f_add x y) f_zero = false.
Hypothesis roots_mul_nonzero : ∀ x y,
  f_eqb (f_sqrt x) f_zero = false → f_eqb (f_sqrt y) f_zero = false →
  f_eqb (f_mul (f_sqrt x) (f_sqrt y)) f_zero = false.

Lemma sum_squares_not_neg (v : list F) :
  f_ltb (py_sum (map (λ a, f_mul a a) v)) f_zero = false.
Proof.
  assert (Hacc : ∀ acc, f_ltb acc f_zero = false →
            f_ltb (fold_left f_add (map (λ a, f_mul a a) v) acc) f_zero = false).
  { induction v as [|a v IH]; intros acc Hacc; cbn; [done|].
    apply IH. by apply add_not_neg. }
  by apply Hacc.
Qed.

Lemma math_sqrt_sum_squares (v : list F) :
  math_sqrt (py_sum (map (λ a, f_mul a a) v)) = Ok (magnitude v).
Proof. unfold math_sqrt. by rewrite sum_squares_not_neg. Qed.

Lemma cosine_equal_lengths (vec_a vec_b : list F) :
  length vec_a = length vec_b →
  _cosine_similarity vec_a vec_b
  = if f_eqb (magnitude vec_a) f_zero || f_eqb (magnitude vec_b) f_zero
    then Ok f_zero
    else Ok (f_div (dot vec_a vec_b)
                   (f_mul (magnitude vec_a) (magnitude vec_b))).
Proof.
  intros Hlen. unfold _cosine_similarity.
  rewrite decide_False by (by intros ?).
  rewrite !math_sqrt_sum_squares. cbn.
  destruct (f_eqb (magnitude vec_a) f_zero) eqn:Ha; [done|].
  destruct (f_eqb (magnitude vec_b) f_zero) eqn:Hb; [done|]. cbn.
  unfold py_div.
  assert (Hm : f_eqb (f_mul (magnitude vec_a) (magnitude vec_b)) f_zero = false)
    by (by apply roots_mul_nonzero).
  by rewrite Hm.
Qed.

Lemma cosine_returns (vec_a vec_b : list F) :
  length vec_a = length vec_b → returns (_cosine_similarity vec_a vec_b).
Proof.
  intros Hlen. rewrite cosine_equal_lengths by done.
  destruct (_ || _); by eexists.
Qed.


End cosine.

Lemma Q_roots_mul_nonzero (x y : Q) :
  f_eqb (f_sqrt x) f_zero = false → f_eqb (f_sqrt y) f_zero = false →
  f_eqb (f_mul (f_sqrt x) (f_sqrt y)) f_zero = false.
Proof. apply Q_mul_nonzero. Qed.


Example cosine_3_4 :
  _cosine_similarity [3%Q; 4%Q] [4%Q; 3%Q] = Ok (Qdiv (0 + 3 * 4 + 4 * 3) (5 * 5)).
Proof. vm_compute. reflexivity. Qed.

Section search.
Context {F : Type} `{FloatOps F}.
Context {Value : Type} `{EqDecision Value}.

(** Laws of float arithmetic used: those of the cosine guard; [<] is
    asymmetric; and "not below" passes through a middle value that is not
    NaN (through NaN it does not: neither [1 < NaN] nor [NaN < 2]). *)
Hypothesis zero_not_neg : f_ltb f_zero f_zero = false.
Hypothesis square_not_neg : ∀ a, f_ltb (f_mul a a) f_zero = false.
Hypothesis add_not_neg : ∀ x y,
  f_ltb x f_zero = false → f_ltb y f_zero = false →
  f_ltb (f_add x y) f_zero = false.
Hypothesis roots_mul_nonzero : ∀ x y,
  f_eqb (f_sqrt x) f_zero = false → f_eqb (f_sqrt y) f_zero = false →
  f_eqb (f_mul (f_sqrt x) (f_sqrt y)) f_zero = false.
Hypothesis ltb_asym : ∀ x y, f_ltb x y = true → f_ltb y x = false.
Hypothesis geb_trans : ∀ x y z,
  is_nan y = false →
  f_ltb x y = false → f_ltb y z = false → f_ltb x z = false.

Lemma matches_filter_spec (md f : gmap string Value) :
  _matches_filter md f = true ↔ ∀ k v, f !! k = Some v → md !! k = Some v.
Proof.
  unfold _matches_filter. rewrite forallb_forall. split.
  - intros Hall k v Hkv.
    apply elem_of_map_to_list, list_elem_of_In, Hall in Hkv.
    by apply bool_decide_eq_true in Hkv.
  - intros Hall [k v] Hin%list_elem_of_In%elem_of_map_to_list.
    apply bool_decide_eq_true. by apply Hall.
Qed.

Lemma skipped_false (metadata_filter : option (gmap string Value))
    (doc : Document F Value) :
  skipped metadata_filter doc = false ↔ satisfies metadata_filter doc.
Proof.
  unfold skipped, satisfies. destruct metadata_filter as [f|]; [|done].
  cbn [dict_truthy]. destruct (decide (f = ∅)) as [->|Hne].
  - rewrite bool_decide_eq_true_2 by done. cbn. split; [|done].
    intros _ f [= <-] k v Hkv. by rewrite lookup_empty in Hkv.
  - rewrite bool_decide_eq_false_2 by done. cbn.
    rewrite negb_false_iff, matches_filter_spec. split.
    + intros Hall f' [= <-]. exact Hall.
    + intros Hall. by apply Hall.
Qed.

Lemma score_documents_ok (q : list F)
    (metadata_filter : option (gmap string Value))
    (docs : list (Document F Value)) :
  (∀ doc, doc ∈ docs → length (embedding doc) = length q) →
  ∃ results,
    score_documents q metadata_filter docs = Ok results ∧
    ∀ doc x, (doc, x) ∈ results →
      doc ∈ docs ∧ skipped metadata_filter doc = false ∧
      _cosine_similarity q (embedding doc) = Ok x.
Proof.
  induction docs as [|doc docs IH]; intros Hlen; cbn [score_documents].
  - exists []. split; [done|]. by intros doc x ?%elem_of_nil.
  - destruct IH as (rs & Hrs & Hin).
    { intros d Hd. apply Hlen. by apply list_elem_of_further. }
    destruct (skipped metadata_filter doc) eqn:Hskip.
    + exists rs. split; [done|]. intros d x Hd.
      destruct (Hin d x Hd) as (? & ? & ?).
      split; [by apply list_elem_of_further|done].
    + destruct (cosine_returns zero_not_neg square_not_neg add_not_neg
                  roots_mul_nonzero q (embedding doc)) as [x Hx].
      { symmetry. apply Hlen, list_elem_of_here. }
      exists ((doc, x) :: rs). rewrite Hx, Hrs. split; [done|].
      intros d y [[= -> ->]|Hd]%elem_of_cons.
      * split; [apply list_elem_of_here|done].
      * destruct (Hin d y Hd) as (? & ? & ?).
        split; [by apply list_elem_of_further|done].
Qed.


End search.

(** Two stored documents with one-dimensional embeddings. *)
Definition two_documents : store Q string :=
  add_documents []
    [ mkDocument "doc-001" "refunds" [1%Q] {["type" := "policy"]} "";
      mkDocument "doc-002" "shipping" [2%Q] {["type" := "faq"]} "" ].



(* --------------------------------------------------------------------- *)
(** ** Further properties of the store and of the search *)
(* --------------------------------------------------------------------- *)

Section store_facts.
Context {F : Type} `{FloatOps F}.
Context {Value : Type} `{EqDecision Value}.

(** The documents a search scores: those the filter does not skip. *)
Definition candidates (flt : option (gmap string Value))
    (s : store F Value) : list (Document F Value) :=
  filter (λ doc, skipped flt doc = false) (map snd s).

(** Invariant of [_documents]: keys are distinct and each document is
    stored under its own [doc_id]. *)
Definition well_keyed (s : store F Value) : Prop :=
  NoDup (map fst s) ∧ ∀ k d, (k, d) ∈ s → doc_id d = k.

Lemma elem_of_dict_set {V} (d : list (string * V)) key v kv :
  kv ∈ dict_set d key v → kv = (key, v) ∨ kv ∈ d.
Proof.
  induction d as [|[k v'] d IH]; cbn.
  - intros ->%list_elem_of_singleton. by left.
  - destruct (decide (k = key)) as [->|Hk].
    + intros [->|Hin]%elem_of_cons; [by left|].
      right. by apply list_elem_of_further.
    + intros [->|Hin]%elem_of_cons; [right; apply list_elem_of_here|].
      destruct (IH Hin) as [->|?]; [by left|].
      right. by apply list_elem_of_further.
Qed.

Lemma add_document_well_keyed (s : store F Value) doc :
  well_keyed s → well_keyed (add_document s doc).
Proof.
  intros [Hnd Hk]. split.
  - by apply dict_set_NoDup.
  - intros k d [[= -> ->]|Hin]%elem_of_dict_set; [done|by apply Hk].
Qed.

Lemma add_documents_well_keyed docs : ∀ s : store F Value,
  well_keyed s → well_keyed (add_documents s docs).
Proof.
  induction docs as [|doc docs IH]; intros s Hs; [done|].
  cbn. by apply IH, add_document_well_keyed.
Qed.

Lemma add_documents_snoc (s : store F Value) docs doc :
  add_documents s (docs ++ [doc]) = add_document (add_documents s docs) doc.
Proof. unfold add_documents. by rewrite fold_left_app. Qed.

(** After [add_documents] on an empty store, the dictionary holds under
    each id the document added last with that id, and nothing under an id
    that was never added. *)
Theorem add_documents_latest (docs : list (Document F Value)) (id : string) :
  dict_get (add_documents [] docs) id
  = last (filter (λ d, doc_id d = id) docs).
Proof.
  induction docs as [|doc docs IH] using rev_ind; [done|].
  rewrite add_documents_snoc, filter_app. unfold add_document.
  rewrite dict_get_set, filter_cons, filter_nil.
  destruct (decide (doc_id doc = id)) as [Heq|Hne].
  - by rewrite last_snoc.
  - by rewrite app_nil_r.
Qed.

Lemma score_documents_docs (q : list F) flt
    (docs : list (Document F Value)) : ∀ rs,
  score_documents q flt docs = Ok rs →
  map fst rs = filter (λ doc, skipped flt doc = false) docs.
Proof.
  induction docs as [|doc docs IH]; intros rs; cbn [score_documents].
  - by intros [= <-].
  - rewrite filter_cons. destruct (skipped flt doc) eqn:Hskip.
    + rewrite decide_False by done. apply IH.
    + rewrite decide_True by done.
      destruct (_cosine_similarity q (embedding doc)) as [x|e]; [|done].
      cbn [mbind result_bind].
      destruct (score_documents q flt docs) as [rs'|e]; [|done].
      cbn [mbind result_bind]. intros [= <-]. cbn. f_equal. by apply IH.
Qed.

Lemma map_imap_const {A B C} (g : nat → A → B) (h : B → C) (h' : A → C) l :
  (∀ i x, h (g i x) = h' x) → map h (imap g l) = map h' l.
Proof.
  intros Hg. revert g Hg. induction l as [|x l IH]; intros g Hg; [done|].
  cbn. rewrite Hg. f_equal. apply IH. intros i y. apply Hg.
Qed.

Lemma sublist_map {A B} (f : A → B) l1 l2 :
  l1 `sublist_of` l2 → map f l1 `sublist_of` map f l2.
Proof. induction 1; cbn; by constructor. Qed.

(** What a successful search returns, before the properties are read off:
    the documents are those of a prefix of the sorted scored candidates. *)
Lemma search_documents (s : store F Value) q top_k flt results :
  similarity_search s q top_k flt = Ok results →
  ∃ rs, map fst rs = candidates flt s ∧
        map document results
        = map fst (slice_to (sorted_desc f_ltb snd rs) top_k).
Proof.
  unfold similarity_search. intros Hs.
  destruct (score_documents q flt (map snd s)) as [rs|e] eqn:Hrs; [|done].
  cbn [mbind result_bind] in Hs. inversion Hs; subst results. exists rs.
  split; [by apply (score_documents_docs q flt)|].
  by apply map_imap_const.
Qed.

(** The number of results for any [top_k], negative ones included: with
    [m] candidates, [min(top_k, m)] for [top_k >= 0] and
    [max(0, m + top_k)] for [top_k < 0]. *)
Theorem search_count (s : store F Value) (q : list F) (top_k : Z)
    (flt : option (gmap string Value)) (results : list (SearchResult F Value)) :
  similarity_search s q top_k flt = Ok results →
  Z.of_nat (length results)
  = if decide (top_k < 0)
    then Z.max 0 (Z.of_nat (length (candidates flt s)) + top_k)
    else Z.min top_k (Z.of_nat (length (candidates flt s))).
Proof.
  intros Hs. destruct (search_documents s q top_k flt results Hs)
    as (rs & Hrs & Hdocs).
  assert (Hlen : length results
                 = length (slice_to (sorted_desc f_ltb snd rs) top_k)).
  { rewrite <- (length_map document), Hdocs. apply length_map. }
  assert (Hn : length (sorted_desc f_ltb snd rs) = length (candidates flt s)).
  { rewrite (sorted_desc_perm f_ltb snd rs), <- Hrs. symmetry.
    apply length_map. }
  rewrite Hlen. unfold slice_to.
  destruct (decide (top_k < 0)); rewrite length_take, Hn; lia.
Qed.

(** When [top_k] is at least the number of stored documents, the search
    returns every candidate exactly once, whatever the scores. *)
Theorem search_complete (s : store F Value) (q : list F) (top_k : Z)
    (flt : option (gmap string Value)) (results : list (SearchResult F Value)) :
  similarity_search s q top_k flt = Ok results →
  Z.of_nat (length s) ≤ top_k →
  map document results ≡ₚ candidates flt s.
Proof.
  intros Hs Hk. destruct (search_documents s q top_k flt results Hs)
    as (rs & Hrs & Hdocs).
  rewrite Hdocs, <- Hrs. unfold slice_to.
  assert (Hn : (length (sorted_desc f_ltb snd rs) ≤ length s)%nat).
  { rewrite (sorted_desc_perm f_ltb snd rs), <- (length_map fst rs), Hrs.
    unfold candidates. etrans; [apply length_filter|].
    by rewrite length_map. }
  rewrite decide_False by lia. rewrite take_ge by lia.
  by rewrite (sorted_desc_perm f_ltb snd rs).
Qed.

(** A store filled by [add_documents] never yields two results with the
    same [doc_id]: a document added again under an id replaces the old
    one. *)
Theorem search_ids_distinct (docs : list (Document F Value)) (q : list F)
    (top_k : Z) (flt : option (gmap string Value))
    (results : list (SearchResult F Value)) :
  similarity_search (add_documents [] docs) q top_k flt = Ok results →
  NoDup (map (λ r, doc_id (document r)) results).
Proof.
  intros Hs. set (s := add_documents [] docs) in *.
  assert (Hwk : well_keyed s).
  { apply add_documents_well_keyed. split; [constructor|].
    by intros k d ?%elem_of_nil. }
  destruct Hwk as [Hnd Hk].
  destruct (search_documents s q top_k flt results Hs) as (rs & Hrs & Hdocs).
  assert (Hids : map doc_id (map snd s) = map fst s).
  { clear -Hk. induction s as [|[k d] s IH]; [done|]. cbn. f_equal.
    - apply Hk, list_elem_of_here.
    - apply IH. intros k' d' Hin. apply Hk. by apply list_elem_of_further. }
  assert (Hcand : NoDup (map doc_id (candidates flt s))).
  { apply (sublist_NoDup _ (map doc_id (map snd s))).
    - rewrite Hids. exact Hnd.
    - apply sublist_map, sublist_filter. }
  replace (map (λ r, doc_id (document r)) results)
    with (map doc_id (map document results)) by (by rewrite List.map_map).
  rewrite Hdocs. destruct (slice_to_take (sorted_desc f_ltb snd rs) top_k)
    as [m ->].
  apply (sublist_NoDup _ (map doc_id (map fst (sorted_desc f_ltb snd rs)))).
  - by rewrite (sorted_desc_perm f_ltb snd rs), Hrs.
  - apply sublist_map, sublist_map, sublist_take.
Qed.

End store_facts.

Lemma two_documents_search :
  similarity_search two_documents [1%Q] 5 None
  = Ok [ mkSearchResult
           (mkDocument "doc-001" "refunds" [1%Q] {["type" := "policy"]} "")
           (Qdiv (0 + 1 * 1) (Qsqrt (0 + 1 * 1) * Qsqrt (0 + 1 * 1))) 1;
         mkSearchResult
           (mkDocument "doc-002" "shipping" [2%Q] {["type" := "faq"]} "")
           (Qdiv (0 + 1 * 2) (Qsqrt (0 + 1 * 1) * Qsqrt (0 + 2 * 2))) 2 ].
Proof. vm_compute. reflexivity. Qed.

Lemma search_count_witness :
  similarity_search two_documents [1%Q] (-1) None
  = Ok [ mkSearchResult
           (mkDocument "doc-001" "refunds" [1%Q] {["type" := "policy"]} "")
           (Qdiv (0 + 1 * 1) (Qsqrt (0 + 1 * 1) * Qsqrt (0 + 1 * 1))) 1 ] ∧
  Z.of_nat 1 = Z.max 0 (Z.of_nat (length (candidates None two_documents)) + -1).
Proof.
  assert (Hs : similarity_search two_documents [1%Q] (-1) None
    = Ok [ mkSearchResult
             (mkDocument "doc-001" "refunds" [1%Q] {["type" := "policy"]} "")
             (Qdiv (0 + 1 * 1) (Qsqrt (0 + 1 * 1) * Qsqrt (0 + 1 * 1))) 1 ])
    by (vm_compute; reflexivity).
  split; [exact Hs|].
  exact (search_count two_documents [1%Q] (-1) None _ Hs).
Defined.

Lemma search_complete_witness :
  Z.of_nat (length two_documents) ≤ 5 ∧
  ∃ results, similarity_search two_documents [1%Q] 5 None = Ok results ∧
             map document results ≡ₚ candidates None two_documents.
Proof.
  assert (Hk : Z.of_nat (length two_documents) ≤ 5) by (vm_compute; congruence).
  split; [exact Hk|]. eexists. split; [exact two_documents_search|].
  exact (search_complete two_documents [1%Q] 5 None _ two_documents_search Hk).
Defined.

Lemma search_ids_distinct_witness :
  ∃ results, similarity_search two_documents [1%Q] 5 None = Ok results ∧
             NoDup (map (λ r, doc_id (document r)) results).
Proof.
  eexists. split; [exact two_documents_search|].
  exact (search_ids_distinct _ [1%Q] 5 None _ two_documents_search).
Defined.

End VectorSearch.

(* ===================================================================== *)
(** * hybrid_retrieval.py *)
(* ===================================================================== *)

Module HybridRetrieval.
Import Py.

(** [class MemoryTier(Enum)] *)
Inductive MemoryTier := EPISODIC | SEMANTIC | PROCEDURAL.

(** [@dataclass MemoryItem]; of its fields [reciprocal_rank_fusion] reads
    [item_id] only, and the metadata, embedding and episodic / procedural
    fields are left out. *)
Record MemoryItem := mkMemoryItem {
  item_id : string;
  tier : MemoryTier;
  content : string
}.

Section fusion.
Context {F : Type} `{FloatOps F}.

(** [@dataclass RetrievalResult] *)
Record RetrievalResult := mkRetrievalResult {
  item : MemoryItem;
  score : F;
  source : string;
  rank : Z
}.

(** The two dictionaries of [reciprocal_rank_fusion]: [rrf_scores], whose
    [items()] are sorted and therefore kept in insertion order, and
    [item_map], only read by key. *)
Record fusion_state := mkState {
  rrf_scores : list (string * F);
  item_map : gmap string MemoryItem
}.

(** [1.0 / (k + rank)]: the integer [k + rank] is converted to a float,
    then divided by. *)
Definition rrf_contribution (k rank : Z) : result F :=
  d ← float_of_int (k + rank);
  py_div f_one d.

(** Body of the inner loop, for the result at 0-based position [i]. *)
Definition fuse_result (k : Z) (st : fusion_state) (i : nat)
    (r : RetrievalResult) : result fusion_state :=
  let rank := Z.of_nat i + 1 in
  let item_id := item_id (item r) in
  contribution ← rrf_contribution k rank;
  let st' :=
    match dict_get (rrf_scores st) item_id with
    | None => mkState (dict_set (rrf_scores st) item_id f_zero)
                      (<[item_id := item r]> (item_map st))
    | Some _ => st
    end in
  Ok (mkState
        (dict_set (rrf_scores st') item_id
           (f_add (default f_zero (dict_get (rrf_scores st') item_id))
                  contribution))
        (item_map st')).

(** [for i, result in enumerate(results)], from position [i] on. *)
Fixpoint fuse_list (k : Z) (st : fusion_state) (i : nat)
    (results : list RetrievalResult) : result fusion_state :=
  match results with
  | [] => Ok st
  | r :: results' =>
    st' ← fuse_result k st i r;
    fuse_list k st' (S i) results'
  end.

(** [for results in ranked_lists] *)
Fixpoint fuse_lists (k : Z) (st : fusion_state)
    (ranked_lists : list (list RetrievalResult)) : result fusion_state :=
  match ranked_lists with
  | [] => Ok st
  | results :: ranked_lists' =>
    st' ← fuse_list k st 0 results;
    fuse_lists k st' ranked_lists'
  end.

(** [item_map[item_id]] *)
Definition item_lookup (m : gmap string MemoryItem) (id : string)
  : result MemoryItem :=
  match m !! id with
  | Some it => Ok it
  | None => Raise KeyError
  end.

(** The final list comprehension over [enumerate(sorted_items)], from
    position [i] on. *)
Fixpoint build_results (m : gmap string MemoryItem) (i : nat)
    (sorted_items : list (string * F)) : result (list RetrievalResult) :=
  match sorted_items with
  | [] => Ok []
  | (id, sc) :: rest =>
    it ← item_lookup m id;
    out ← build_results m (S i) rest;
    Ok (mkRetrievalResult it sc "hybrid_rrf" (Z.of_nat i + 1) :: out)
  end.

Definition reciprocal_rank_fusion (ranked_lists : list (list RetrievalResult))
    (k : Z) : result (list RetrievalResult) :=
  st ← fuse_lists k (mkState [] ∅) ranked_lists;
  build_results (item_map st) 0
    (sorted_desc f_ltb snd (rrf_scores st)).

(** The default [k=60]. *)
Definition default_k : Z := 60.

(** Specification side, after the words of the claim.  The id of a
    result; the 1-indexed rank of an id in a list (its first position);
    and the terms [1/(k + rank)] of the lists that contain the id. *)
Definition result_id (r : RetrievalResult) : string := item_id (item r).

Definition rank_in (x : string) (l : list RetrievalResult) : option Z :=
  (λ ir, Z.of_nat ir.1 + 1) <$> list_find (λ r, result_id r = x) l.

Definition contributions (k : Z) (ranked_lists : list (list RetrievalResult))
    (x : string) : list F :=
  omap (λ l, (λ rank, f_div f_one (f_of_int (k + rank))) <$> rank_in x l)
       ranked_lists.

(** The term the loop adds for rank [rank] when [k + rank] is not zero
    and converts to a float. *)
Definition term (k rank : Z) : F := f_div f_one (f_of_int (k + rank)).

(** Trace of the two loops: the (id, term) pairs in the order in which the
    loop body meets them. *)
Fixpoint history_from (k : Z) (i : nat) (l : list RetrievalResult)
  : list (string * F) :=
  match l with
  | [] => []
  | r :: l' => (result_id r, term k (Z.of_nat i + 1)) :: history_from k (S i) l'
  end.

Definition history (k : Z) (ranked_lists : list (list RetrievalResult))
  : list (string * F) :=
  concat (map (history_from k 0) ranked_lists).

(** The terms a trace holds for one id. *)
Definition terms_of (x : string) (h : list (string * F)) : list F :=
  map snd (filter (λ e, e.1 = x) h).

(** Loop invariant: the keys of [rrf_scores] are distinct and are the ids
    of the trace; each score is the left-to-right sum of the id's terms;
    [item_map] holds, for each id of the trace, an item with that id. *)
Record fusion_inv (st : fusion_state) (h : list (string * F)) : Prop := {
  inv_nodup : NoDup (map fst (rrf_scores st));
  inv_keys : ∀ x, x ∈ map fst (rrf_scores st) ↔ x ∈ map fst h;
  inv_score : ∀ x v, dict_get (rrf_scores st) x = Some v →
                     v = py_sum (terms_of x h);
  inv_items : ∀ x, x ∈ map fst h →
                   ∃ it, item_map st !! x = Some it ∧ item_id it = x
}.

(** Each [item_id] occurs at most once per list. *)
Definition ids_unique (ranked_lists : list (list RetrievalResult)) : Prop :=
  ∀ l, l ∈ ranked_lists → NoDup (map result_id l).

(** Every [k + rank] of the input is a non-zero integer that converts to
    a float. *)
Definition denominators_ok (k : Z)
    (ranked_lists : list (list RetrievalResult)) : Prop :=
  ∀ l, l ∈ ranked_lists →
    ∀ i : nat, (i < length l)%nat →
      k + (Z.of_nat i + 1) ≠ 0 ∧ Z.abs (k + (Z.of_nat i + 1)) < float_limit.

(** Some rank of the input makes [k + rank] zero. *)
Definition zero_denominator (k : Z)
    (ranked_lists : list (list RetrievalResult)) : Prop :=
  ∃ l (i : nat), l ∈ ranked_lists ∧ (i < length l)%nat ∧
                 k + (Z.of_nat i + 1) = 0.

(** Some rank of the input makes [k + rank] too large for a float. *)
Definition oversized_denominator (k : Z)
    (ranked_lists : list (list RetrievalResult)) : Prop :=
  ∃ l (i : nat), l ∈ ranked_lists ∧ (i < length l)%nat ∧
                 float_limit ≤ Z.abs (k + (Z.of_nat i + 1)).

(** The largest rank of every list still gives a [k + rank] that converts
    to a float. *)
Definition ranks_convert (k : Z)
    (ranked_lists : list (list RetrievalResult)) : Prop :=
  ∀ l, l ∈ ranked_lists → k + Z.of_nat (length l) < float_limit.

End fusion.

Arguments RetrievalResult F : clear implicits.
Arguments fusion_state F : clear implicits.

(** The example of the demonstration: vector ranks A B C D, graph ranks
    C A E F. *)
Definition mem (id : string) : MemoryItem := mkMemoryItem id SEMANTIC id.

Definition ranked (src : string) (ids : list string) : list (RetrievalResult Q) :=
  imap (λ i id, mkRetrievalResult (mem id) 1%Q src (Z.of_nat i + 1)) ids.

Definition demo_lists : list (list (RetrievalResult Q)) :=
  [ ranked "vector" ["A"; "B"; "C"; "D"]; ranked "graph" ["C"; "A"; "E"; "F"] ].

Example demo_fusion_order :
  ∃ out, reciprocal_rank_fusion demo_lists default_k = Ok out ∧
         map result_id out = ["A"; "C"; "B"; "E"; "D"; "F"] ∧
         map rank out = [1; 2; 3; 4; 5; 6].
Proof. eexists. split; [vm_compute; reflexivity|]. split; reflexivity. Qed.

(* --------------------------------------------------------------------- *)
(** ** Properties *)
(* --------------------------------------------------------------------- *)

Section fusion_facts.
Context {F : Type} `{FloatOps F}.

(** Laws of float arithmetic used, all of them laws of IEEE doubles:
    among the integers that convert, only zero converts to the float
    zero; zero is neither NaN nor negative, nor is the sum of two such
    floats, nor the reciprocal of a positive integer that converts; [<]
    is asymmetric, and "not below" passes through a middle value that is
    not NaN. *)
Hypothesis of_int_zero : ∀ n,
  Z.abs n < float_limit → f_eqb (f_of_int n) f_zero = true → n = 0.
Hypothesis zero_not_negative : not_negative f_zero.
Hypothesis add_not_negative : ∀ x y,
  not_negative x → not_negative y → not_negative (f_add x y).
Hypothesis reciprocal_not_negative : ∀ n,
  0 < n < float_limit → not_negative (f_div f_one (f_of_int n)).
Hypothesis ltb_asym : ∀ x y, f_ltb x y = true → f_ltb y x = false.
Hypothesis geb_trans : ∀ x y z,
  is_nan y = false →
  f_ltb x y = false → f_ltb y z = false → f_ltb x z = false.

Lemma rrf_contribution_ok k rank :
  k + rank ≠ 0 → Z.abs (k + rank) < float_limit →
  rrf_contribution k rank = Ok (term k rank).
Proof.
  intros Hnz Hlim. unfold rrf_contribution, float_of_int, py_div.
  rewrite decide_True by done. cbn [mbind result_bind].
  destruct (f_eqb (f_of_int (k + rank)) f_zero) eqn:E; [|done].
  by apply of_int_zero in E.
Qed.

Lemma terms_of_snoc x (h : list (string * F)) id c :
  terms_of x (h ++ [(id, c)])
  = terms_of x h ++ (if decide (id = x) then [c] else []).
Proof.
  unfold terms_of. rewrite filter_app, List.map_app. f_equal.
  rewrite filter_cons, filter_nil. cbn. by destruct (decide (id = x)).
Qed.

Lemma fusion_inv_init : fusion_inv (mkState ([] : list (string * F)) ∅) [].
Proof.
  split; cbn.
  - constructor.
  - done.
  - done.
  - by intros x ?%elem_of_nil.
Qed.

Lemma fuse_result_spec k st h i (r : RetrievalResult F) :
  k + (Z.of_nat i + 1) ≠ 0 →
  Z.abs (k + (Z.of_nat i + 1)) < float_limit →
  fusion_inv st h →
  ∃ st', fuse_result k st i r = Ok st' ∧
         fusion_inv st' (h ++ [(result_id r, term k (Z.of_nat i + 1))]).
Proof.
  intros Hnz Hlim Hinv. unfold fuse_result.
  rewrite rrf_contribution_ok by done. cbn [mbind result_bind].
  eexists. split; [reflexivity|].
  fold (result_id r). set (x := result_id r).
  set (c := term k (Z.of_nat i + 1)).
  destruct (dict_get (rrf_scores st) x) as [v|] eqn:Hget.
  - (* the id already has a score *)
    assert (Hx : x ∈ map fst (rrf_scores st)).
    { destruct (decide (x ∈ map fst (rrf_scores st))) as [|Hn]; [done|].
      apply dict_get_None in Hn. congruence. }
    split; cbn [rrf_scores item_map].
    + by apply dict_set_NoDup, (inv_nodup _ _ Hinv).
    + intros y. rewrite dict_set_keys, decide_True by done.
      rewrite (inv_keys _ _ Hinv), List.map_app, elem_of_app. cbn.
      rewrite list_elem_of_singleton. split; [tauto|].
      intros [?| ->]; [done|]. by apply (inv_keys _ _ Hinv).
    + intros y w. rewrite dict_get_set, terms_of_snoc.
      destruct (decide (x = y)) as [<-|Hne].
      * intros [= <-]. rewrite py_sum_snoc, Hget. cbn.
        by rewrite <- (inv_score _ _ Hinv x v Hget).
      * rewrite app_nil_r. apply (inv_score _ _ Hinv).
    + intros y. rewrite List.map_app, elem_of_app. cbn.
      rewrite list_elem_of_singleton. intros [Hy| ->].
      * by apply (inv_items _ _ Hinv).
      * by apply (inv_items _ _ Hinv), (inv_keys _ _ Hinv).
  - (* first occurrence of the id *)
    assert (Hx : x ∉ map fst (rrf_scores st)) by (by apply dict_get_None).
    assert (Hxh : x ∉ map fst h) by (by rewrite <- (inv_keys _ _ Hinv)).
    cbn [rrf_scores item_map]. rewrite dict_get_set, decide_True by done.
    cbn [default].
    split; cbn [rrf_scores item_map].
    + apply dict_set_NoDup, dict_set_NoDup, (inv_nodup _ _ Hinv).
    + intros y.
      assert (Hk1 : map fst (dict_set (rrf_scores st) x f_zero)
                    = map fst (rrf_scores st) ++ [x])
        by (by rewrite dict_set_keys, decide_False).
      rewrite dict_set_keys, Hk1.
      rewrite decide_True by (rewrite elem_of_app, list_elem_of_singleton; auto).
      rewrite !List.map_app, !elem_of_app, (inv_keys _ _ Hinv). done.
    + intros y w. rewrite !dict_get_set, terms_of_snoc.
      destruct (decide (x = y)) as [<-|Hne].
      * intros [= <-]. rewrite py_sum_snoc. f_equal.
        unfold terms_of. replace (filter (λ e, e.1 = x) h) with (@nil (string * F)).
        { done. }
        symmetry. apply elem_of_nil_inv. intros [a b] [Ha Hin]%list_elem_of_filter.
        cbn in Ha. subst a. apply Hxh, list_elem_of_fmap. by exists (x, b).
      * rewrite app_nil_r. apply (inv_score _ _ Hinv).
    + intros y. rewrite List.map_app, elem_of_app. cbn.
      rewrite list_elem_of_singleton.
      destruct (decide (x = y)) as [<-|Hne].
      * intros _. exists (item r). by rewrite lookup_insert_eq.
      * intros [Hy|Hy]; [|congruence].
        rewrite lookup_insert_ne by done. by apply (inv_items _ _ Hinv).
Qed.

Lemma fuse_list_spec k (l : list (RetrievalResult F)) : ∀ st h i,
  (∀ j : nat, (j < length l)%nat →
     k + (Z.of_nat (i + j) + 1) ≠ 0 ∧
     Z.abs (k + (Z.of_nat (i + j) + 1)) < float_limit) →
  fusion_inv st h →
  ∃ st', fuse_list k st i l = Ok st' ∧
         fusion_inv st' (h ++ history_from k i l).
Proof.
  induction l as [|r l IH]; intros st h i Hnz Hinv; cbn [fuse_list history_from].
  - exists st. by rewrite app_nil_r.
  - destruct (fuse_result_spec k st h i r) as (st1 & -> & Hinv1);
      [| |done|].
    { specialize (Hnz 0%nat). rewrite Nat.add_0_r in Hnz. apply Hnz. cbn. lia. }
    { specialize (Hnz 0%nat). rewrite Nat.add_0_r in Hnz. apply Hnz. cbn. lia. }
    cbn [mbind result_bind].
    destruct (IH st1 (h ++ [(result_id r, term k (Z.of_nat i + 1))]) (S i))
      as (st2 & -> & Hinv2); [|done|].
    { intros j Hj. specialize (Hnz (S j)).
      replace (S i + j)%nat with (i + S j)%nat by lia. apply Hnz. cbn. lia. }
    exists st2. split; [done|]. by rewrite <- app_assoc in Hinv2.
Qed.

Lemma fuse_lists_spec k (ls : list (list (RetrievalResult F))) : ∀ st h,
  denominators_ok k ls →
  fusion_inv st h →
  ∃ st', fuse_lists k st ls = Ok st' ∧ fusion_inv st' (h ++ history k ls).
Proof.
  induction ls as [|l ls IH]; intros st h Hnz Hinv; cbn [fuse_lists].
  - exists st. by rewrite app_nil_r.
  - destruct (fuse_list_spec k l st h 0%nat) as (st1 & -> & Hinv1); [|done|].
    { intros j Hj. apply (Hnz l); [apply list_elem_of_here|done]. }
    cbn [mbind result_bind].
    destruct (IH st1 (h ++ history_from k 0 l)) as (st2 & -> & Hinv2);
      [|done|].
    { intros l' Hl'. apply Hnz. by apply list_elem_of_further. }
    exists st2. split; [done|]. unfold history in *. cbn [map concat].
    by rewrite app_assoc.
Qed.

Lemma terms_of_app x (h1 h2 : list (string * F)) :
  terms_of x (h1 ++ h2) = terms_of x h1 ++ terms_of x h2.
Proof. unfold terms_of. by rewrite filter_app, List.map_app. Qed.

Lemma terms_of_absent x k (l : list (RetrievalResult F)) i :
  x ∉ map result_id l → terms_of x (history_from k i l) = [].
Proof.
  revert i. induction l as [|r l IH]; intros i Hx; [done|].
  cbn [history_from]. unfold terms_of. rewrite filter_cons. cbn [fst].
  cbn [map] in Hx. rewrite elem_of_cons in Hx.
  destruct (decide (result_id r = x)) as [Heq|Hne];
    [exfalso; apply Hx; by left|].
  apply IH. tauto.
Qed.

Lemma terms_history_from x k (l : list (RetrievalResult F)) : ∀ i,
  NoDup (map result_id l) →
  terms_of x (history_from k i l)
  = match list_find (λ r, result_id r = x) l with
    | Some jr => [term k (Z.of_nat (i + jr.1) + 1)]
    | None => []
    end.
Proof.
  induction l as [|r l IH]; intros i Hnd; [done|].
  cbn [map] in Hnd. apply NoDup_cons in Hnd as [Hr Hnd].
  cbn [history_from list_find]. unfold terms_of at 1. rewrite filter_cons.
  cbn [fst]. destruct (decide (result_id r = x)) as [Hx|Hx].
  - cbn [map snd fst]. rewrite Nat.add_0_r. f_equal.
    apply (terms_of_absent x k l (S i)). by rewrite <- Hx.
  - fold (terms_of x (history_from k (S i) l)). rewrite (IH (S i) Hnd).
    destruct (list_find (λ r0, result_id r0 = x) l) as [[j r']|]; cbn; [|done].
    do 3 f_equal. lia.
Qed.

Lemma terms_history k (ls : list (list (RetrievalResult F))) x :
  ids_unique ls → terms_of x (history k ls) = contributions k ls x.
Proof.
  induction ls as [|l ls IH]; intros Hu; [done|].
  unfold history, contributions in *. cbn [map concat omap list_omap].
  rewrite terms_of_app, IH
    by (intros l' Hl'; apply Hu; by apply list_elem_of_further).
  rewrite terms_history_from by apply Hu, list_elem_of_here.
  unfold rank_in.
  destruct (list_find (λ r, result_id r = x) l) as [[j r]|]; cbn; [|done].
  unfold term. do 4 f_equal.
Qed.

Lemma elem_of_history k (ls : list (list (RetrievalResult F))) x :
  x ∈ map fst (history k ls) ↔ ∃ l r, l ∈ ls ∧ r ∈ l ∧ result_id r = x.
Proof.
  assert (Hfrom : ∀ l i, map fst (history_from k i l) = map result_id l).
  { induction l as [|r l IH]; intros i; cbn; [done|]. by rewrite IH. }
  induction ls as [|l ls IH].
  - cbn. split; [by intros ?%elem_of_nil|].
    by intros (l & r & ?%elem_of_nil & _).
  - unfold history in *. cbn [map concat].
    rewrite List.map_app, elem_of_app, IH, Hfrom, list_elem_of_fmap. split.
    + intros [(r & -> & Hr)|(l' & r & Hl' & Hr & Hx)].
      * exists l, r. split; [apply list_elem_of_here|done].
      * exists l', r. split; [by apply list_elem_of_further|done].
    + intros (l' & r & [->|Hl']%elem_of_cons & Hr & Hx).
      * left. by exists r.
      * right. by exists l', r.
Qed.

Lemma build_results_spec (m : gmap string MemoryItem)
    (items : list (string * F)) : ∀ i,
  (∀ id sc, (id, sc) ∈ items → ∃ it, m !! id = Some it ∧ item_id it = id) →
  ∃ out, build_results m i items = Ok out ∧
    map result_id out = map fst items ∧
    ∀ (j : nat) r, out !! j = Some r →
      items !! j = Some (result_id r, score r) ∧
      rank r = Z.of_nat (i + j) + 1.
Proof.
  induction items as [|[id sc] items IH]; intros i Hm; cbn [build_results].
  - exists []. by repeat split.
  - destruct (Hm id sc) as (it & Hit & Hid); [apply list_elem_of_here|].
    unfold item_lookup. rewrite Hit. cbn [mbind result_bind].
    destruct (IH (S i)) as (out & -> & Hids & Hlook).
    { intros id' sc' Hin. apply (Hm id' sc'). by apply list_elem_of_further. }
    cbn [mbind result_bind]. eexists. split; [reflexivity|]. split.
    + cbn. unfold result_id at 1. cbn. by rewrite Hid, Hids.
    + intros [|j] r Hr; cbn in Hr.
      * inversion Hr; subst r. unfold result_id. cbn.
        rewrite Hid, Nat.add_0_r. done.
      * destruct (Hlook j r Hr) as [Hj Hrank]. split; [done|].
        rewrite Hrank. f_equal. lia.
Qed.

Lemma ranks_convert_ok k (ls : list (list (RetrievalResult F))) :
  0 ≤ k → ranks_convert k ls → denominators_ok k ls.
Proof.
  intros Hk Hconv l Hl i Hi. specialize (Hconv l Hl). lia.
Qed.

Lemma py_sum_not_negative (xs : list F) :
  Forall not_negative xs → not_negative (py_sum xs).
Proof.
  unfold py_sum. generalize (f_zero : F) zero_not_negative.
  induction xs as [|x xs IH]; intros acc Hacc Hxs; [done|].
  apply Forall_cons in Hxs as [Hx Hxs]. cbn [fold_left].
  apply IH; [|done]. by apply add_not_negative.
Qed.

Lemma history_from_not_negative k (l : list (RetrievalResult F)) : ∀ i,
  0 ≤ k → k + Z.of_nat (i + length l) < float_limit →
  Forall (λ e, not_negative (snd e)) (history_from k i l).
Proof.
  induction l as [|r l IH]; intros i Hk Hlim; cbn [history_from];
    [constructor|].
  cbn [length] in Hlim. constructor.
  - cbn [snd]. unfold term. apply reciprocal_not_negative. lia.
  - apply IH; [done|]. replace (S i + length l)%nat with (i + S (length l))%nat
      by lia. done.
Qed.

Lemma history_not_negative k (ls : list (list (RetrievalResult F))) :
  0 ≤ k → ranks_convert k ls →
  Forall (λ e, not_negative (snd e)) (history k ls).
Proof.
  intros Hk Hconv. unfold history. induction ls as [|l ls IH];
    cbn [map concat]; [constructor|].
  apply Forall_app. split.
  - apply history_from_not_negative; [done|]. cbn. apply Hconv.
    apply list_elem_of_here.
  - apply IH. intros l' Hl'. apply Hconv. by apply list_elem_of_further.
Qed.

Lemma terms_of_not_negative x (h : list (string * F)) :
  Forall (λ e, not_negative (snd e)) h → Forall not_negative (terms_of x h).
Proof.
  intros Hh. unfold terms_of. apply Forall_forall.
  intros v (e & -> & He)%list_elem_of_fmap.
  apply list_elem_of_filter in He as [_ He].
  rewrite Forall_forall in Hh. by apply Hh.
Qed.


End fusion_facts.


Lemma demo_lists_unique : ids_unique demo_lists.
Proof.
  intros l Hl. apply elem_of_cons in Hl as [->|Hl];
    [|apply list_elem_of_singleton in Hl as ->];
    refine (bool_decide_unpack _ _); vm_compute; exact I.
Qed.

Lemma demo_lists_convert : ranks_convert default_k demo_lists.
Proof.
  intros l Hl. apply elem_of_cons in Hl as [->|Hl];
    [|apply list_elem_of_singleton in Hl as ->]; vm_compute; reflexivity.
Qed.


(* --------------------------------------------------------------------- *)
(** ** When the fusion raises *)
(* --------------------------------------------------------------------- *)

Section fusion_raises.
Context {F : Type} `{FloatOps F}.

(** Law used: among the integers that convert to a float, exactly zero
    converts to the float zero. *)
Hypothesis of_int_zero : ∀ n,
  Z.abs n < float_limit → (f_eqb (f_of_int n) f_zero = true ↔ n = 0).

Lemma rrf_contribution_cases k rank :
  (k + rank = 0 ∧
   rrf_contribution (F := F) k rank = Raise ZeroDivisionError) ∨
  (float_limit ≤ Z.abs (k + rank) ∧
   rrf_contribution (F := F) k rank = Raise OverflowError) ∨
  (k + rank ≠ 0 ∧ Z.abs (k + rank) < float_limit ∧
   rrf_contribution k rank = Ok (term k rank)).
Proof.
  unfold rrf_contribution, float_of_int, py_div.
  destruct (decide (Z.abs (k + rank) < float_limit)) as [Hlim|Hlim];
    cbn [mbind result_bind].
  - destruct (f_eqb (f_of_int (k + rank)) f_zero) eqn:E.
    + left. split; [by apply of_int_zero|done].
    + right. right. split; [|done]. intros Hz.
      apply (of_int_zero _ Hlim) in Hz. congruence.
  - right. left. split; [lia|done].
Qed.

Lemma fuse_list_outcome k (l : list (RetrievalResult F)) : ∀ st i,
  match fuse_list k st i l with
  | Ok _ =>
    ∀ j : nat, (j < length l)%nat →
      k + (Z.of_nat (i + j) + 1) ≠ 0 ∧
      Z.abs (k + (Z.of_nat (i + j) + 1)) < float_limit
  | Raise e =>
    (e = ZeroDivisionError ∧
     ∃ j : nat, (j < length l)%nat ∧ k + (Z.of_nat (i + j) + 1) = 0) ∨
    (e = OverflowError ∧
     ∃ j : nat, (j < length l)%nat ∧
                float_limit ≤ Z.abs (k + (Z.of_nat (i + j) + 1)))
  end.
Proof.
  induction l as [|r l IH]; intros st i; cbn [fuse_list].
  - intros j Hj. cbn in Hj. lia.
  - unfold fuse_result at 1.
    destruct (rrf_contribution_cases k (Z.of_nat i + 1))
      as [[Hz ->]|[[Hbig ->]|(Hnz & Hlim & ->)]]; cbn [mbind result_bind].
    + left. split; [done|]. exists 0%nat. rewrite Nat.add_0_r.
      split; [cbn; lia|done].
    + right. split; [done|]. exists 0%nat. rewrite Nat.add_0_r.
      split; [cbn; lia|done].
    + match goal with |- context [fuse_list k ?st' (S i) l] =>
        specialize (IH st' (S i)); destruct (fuse_list k st' (S i) l) end.
      * intros [|j] Hj.
        -- by rewrite Nat.add_0_r.
        -- replace (i + S j)%nat with (S i + j)%nat by lia. apply IH.
           cbn in Hj. lia.
      * destruct IH as [[-> (j & Hj & Hz)]|[-> (j & Hj & Hbig)]].
        -- left. split; [done|]. exists (S j).
           replace (i + S j)%nat with (S i + j)%nat by lia.
           split; [cbn; lia|done].
        -- right. split; [done|]. exists (S j).
           replace (i + S j)%nat with (S i + j)%nat by lia.
           split; [cbn; lia|done].
Qed.

Lemma fuse_lists_outcome k (ls : list (list (RetrievalResult F))) : ∀ st,
  match fuse_lists k st ls with
  | Ok _ => denominators_ok k ls
  | Raise e =>
    (e = ZeroDivisionError ∧ zero_denominator k ls) ∨
    (e = OverflowError ∧ oversized_denominator k ls)
  end.
Proof.
  induction ls as [|l ls IH]; intros st; cbn [fuse_lists].
  - by intros l ?%elem_of_nil.
  - pose proof (fuse_list_outcome k l st 0%nat) as Hl.
    destruct (fuse_list k st 0 l) as [st1|e]; cbn [mbind result_bind].
    + specialize (IH st1). destruct (fuse_lists k st1 ls).
      * intros l' [->|Hl']%elem_of_cons j Hj.
        -- by apply (Hl j).
        -- by apply (IH l').
      * destruct IH as [[-> (l' & j & Hl' & Hj & Hz)]
                       |[-> (l' & j & Hl' & Hj & Hbig)]].
        -- left. split; [done|]. exists l', j.
           split; [by apply list_elem_of_further|done].
        -- right. split; [done|]. exists l', j.
           split; [by apply list_elem_of_further|done].
    + destruct Hl as [[-> (j & Hj & Hz)]|[-> (j & Hj & Hbig)]].
      * left. split; [done|]. exists l, j.
        split; [apply list_elem_of_here|done].
      * right. split; [done|]. exists l, j.
        split; [apply list_elem_of_here|done].
Qed.

Lemma fusion_returns (ranked_lists : list (list (RetrievalResult F))) k :
  denominators_ok k ranked_lists →
  returns (reciprocal_rank_fusion ranked_lists k).
Proof.
  intros Hnz. unfold reciprocal_rank_fusion.
  destruct (fuse_lists_spec (λ n Hn, proj1 (of_int_zero n Hn)) k ranked_lists
              (mkState [] ∅) [] Hnz fusion_inv_init) as (st & -> & Hinv).
  cbn [mbind result_bind].
  destruct (build_results_spec (item_map st)
              (sorted_desc f_ltb snd (rrf_scores st)) 0%nat)
    as (out & -> & _); [|by eexists].
  intros id sc Hin. apply (inv_items _ _ Hinv), (inv_keys _ _ Hinv).
  rewrite (sorted_desc_perm f_ltb snd) in Hin.
  apply list_elem_of_fmap. by exists (id, sc).
Qed.

(** [reciprocal_rank_fusion] returns exactly when every [k + rank] of
    the input is a non-zero integer that converts to a float.  What it
    raises otherwise is [ZeroDivisionError], and then some [k + rank] is
    zero, or [OverflowError], and then some [k + rank] is too large for a
    float; it never raises a [KeyError] from [item_map]. *)
Theorem fusion_raises_exactly (ranked_lists : list (list (RetrievalResult F)))
    (k : Z) :
  (returns (reciprocal_rank_fusion ranked_lists k) ↔
     denominators_ok k ranked_lists) ∧
  (∀ e, reciprocal_rank_fusion ranked_lists k = Raise e →
     (e = ZeroDivisionError ∧ zero_denominator k ranked_lists) ∨
     (e = OverflowError ∧ oversized_denominator k ranked_lists)).
Proof.
  pose proof (fuse_lists_outcome k ranked_lists (mkState [] ∅)) as Hout.
  split; [split; [|apply fusion_returns]|].
  - intros [out Hok]. unfold reciprocal_rank_fusion in Hok.
    destruct (fuse_lists k (mkState [] ∅) ranked_lists); [done|].
    cbn [mbind result_bind] in Hok. done.
  - intros e He.
    destruct (fuse_lists k (mkState [] ∅) ranked_lists) as [st|e'] eqn:Hf.
    + destruct (fusion_returns ranked_lists k Hout) as [out Hok]. congruence.
    + unfold reciprocal_rank_fusion in He. rewrite Hf in He.
      cbn [mbind result_bind] in He. inversion He; subst e'. done.
Qed.

End fusion_raises.

(** A [k] of 400 decimal digits: [k + 1] does not convert to a float. *)
Example fusion_overflow :
  reciprocal_rank_fusion [ranked "vector" ["A"]] (10 ^ 400)
  = Raise OverflowError.
Proof. vm_compute. reflexivity. Qed.

Lemma fusion_raises_exactly_witness :
  (∀ n, Z.abs n < float_limit →
        (f_eqb (f_of_int n : Q) f_zero = true ↔ n = 0)) ∧
  returns (reciprocal_rank_fusion demo_lists default_k).
Proof.
  split; [exact Q_of_int_zero_in_range|].
  apply (proj1 (fusion_raises_exactly Q_of_int_zero_in_range
                  demo_lists default_k)).
  apply ranks_convert_ok; [unfold default_k; lia|exact demo_lists_convert].
Defined.

End HybridRetrieval.

(* ===================================================================== *)
(** * Failure behaviour of the retrieval subsystem *)
(* ===================================================================== *)

Module Failure.
Import Py.

Section raises.
Context {F : Type} `{FloatOps F}.
Context {Value : Type} `{EqDecision Value}.

Hypothesis zero_not_neg : f_ltb f_zero f_zero = false.
Hypothesis square_not_neg : ∀ a, f_ltb (f_mul a a) f_zero = false.
Hypothesis add_not_neg : ∀ x y,
  f_ltb x f_zero = false → f_ltb y f_zero = false →
  f_ltb (f_add x y) f_zero = false.
Hypothesis roots_mul_nonzero : ∀ x y,
  f_eqb (f_sqrt x) f_zero = false → f_eqb (f_sqrt y) f_zero = false →
  f_eqb (f_mul (f_sqrt x) (f_sqrt y)) f_zero = false.
Hypothesis of_int_zero : ∀ n,
  Z.abs n < float_limit → (f_eqb (f_of_int n) f_zero = true ↔ n = 0).

(** A stored document is harmless for a query: the filter skips it, or
    its embedding has the length of the query. *)
Definition harmless (q : list F) (flt : option (gmap string Value))
    (doc : VectorSearch.Document F Value) : Prop :=
  VectorSearch.skipped flt doc = true ∨
  length (VectorSearch.embedding doc) = length q.

#[local] Instance harmless_dec q flt doc : Decision (harmless q flt doc).
Proof. unfold harmless. apply _. Defined.

Lemma cosine_outcome (a b : list F) :
  (returns (VectorSearch._cosine_similarity a b) ↔ length a = length b) ∧
  (length a ≠ length b →
   VectorSearch._cosine_similarity a b = Raise ValueError).
Proof.
  assert (Hne : length a ≠ length b →
                VectorSearch._cosine_similarity a b = Raise ValueError).
  { intros Hl. unfold VectorSearch._cosine_similarity. by rewrite decide_True. }
  split; [|done]. split.
  - intros [x Hx]. destruct (decide (length a = length b)) as [|Hl]; [done|].
    rewrite (Hne Hl) in Hx. done.
  - by apply VectorSearch.cosine_returns.
Qed.

Lemma score_documents_outcome (q : list F) flt
    (docs : list (VectorSearch.Document F Value)) :
  (Forall (harmless q flt) docs ∧
   returns (VectorSearch.score_documents q flt docs)) ∨
  (¬ Forall (harmless q flt) docs ∧
   VectorSearch.score_documents q flt docs = Raise ValueError).
Proof.
  induction docs as [|doc docs IH]; cbn [VectorSearch.score_documents].
  - left. split; [constructor|by eexists].
  - destruct (VectorSearch.skipped flt doc) eqn:Hskip.
    + destruct IH as [[Hall Hret]|[Hex Hraise]].
      * left. split; [|done]. constructor; [by left|done].
      * right. split; [|done]. intros Hall. apply Hex.
        by apply Forall_cons in Hall as [_ ?].
    + destruct (decide (length q = length (VectorSearch.embedding doc)))
        as [Hlen|Hlen].
      * destruct (proj2 (proj1 (cosine_outcome q (VectorSearch.embedding doc)))
                    Hlen) as [x ->].
        cbn [mbind result_bind].
        destruct IH as [[Hall [rs ->]]|[Hex ->]].
        -- left. split; [|by eexists]. constructor; [by right|done].
        -- right. split; [|done]. intros Hall. apply Hex.
           by apply Forall_cons in Hall as [_ ?].
      * rewrite (proj2 (cosine_outcome q (VectorSearch.embedding doc)) Hlen).
        right. split; [|done]. intros Hall.
        apply Forall_cons in Hall as [[Hs|Hl] _]; congruence.
Qed.

Lemma shortest_path_returns (g : KnowledgeGraph.KnowledgeGraph)
    (source target : string) (max_depth : Z) :
  ∃ r, KnowledgeGraph.shortest_path g source target max_depth
       = KnowledgeGraph.Returned r.
Proof.
  unfold KnowledgeGraph.shortest_path, KnowledgeGraph.shortest_path_fuel.
  destruct (decide (source = target)) as [|Hne]; [by eexists|].
  destruct (KnowledgeGraph.bfs_loop_correct g source target max_depth
              (KnowledgeGraph.bfs_fuel g) 0%nat {[source]}
              [(source, [source])] []) as (r & Hr & _).
  - by apply KnowledgeGraph.inv_init.
  - cbn [app length]. unfold KnowledgeGraph.bfs_fuel.
    assert (size (KnowledgeGraph.all_targets g ∖ {[source]})
            ≤ size (KnowledgeGraph.all_targets g))%nat.
    { apply subseteq_size. intros x Hx.
      by apply elem_of_difference in Hx as [? _]. }
    lia.
  - by exists r.
Qed.


End raises.



End Failure.

(* ===================================================================== *)
(** * 02-interoperability/adapter_pattern.py *)
(* ===================================================================== *)

Module Simulated.
Import Py.

(** [needle in hay] on strings *)
Fixpoint contains (needle hay : string) : bool :=
  if String.prefix needle hay then true
  else match hay with
       | EmptyString => false
       | String _ hay' => contains needle hay'
       end.

(** ** 02-interoperability/adapter_pattern.py: [ERPSoapAdapter] *)

(** A value of [self._inventory]. *)
Record stock := mkStock {
  stock_name : string;
  quantity : Z;
  warehouse : string
}.

(** [ERPSoapAdapter._inventory], in insertion order. *)
Definition _inventory : list (string * stock) :=
  [ ("SKU-001", mkStock "Widget Pro" 150 "WH-A");
    ("SKU-002", mkStock "Gadget Plus" 75 "WH-B") ].

(** The dictionary [call_legacy_system] returns. *)
Inductive response :=
| Inventory (sku name : string) (quantity : Z) (warehouse source : string)
| SkuNotFound.

(** [for sku, data in self._inventory.items(): if sku in legacy_request:
    return {...}], then [return {"error": "SKU not found"}]. *)
Fixpoint find_sku (inventory : list (string * stock)) (legacy_request : string)
  : response :=
  match inventory with
  | [] => SkuNotFound
  | (sku, data) :: inventory' =>
    if contains sku legacy_request then
      Inventory sku (stock_name data) (quantity data) (warehouse data)
                "legacy-erp"
    else find_sku inventory' legacy_request
  end.

Section call.
Context {F : Type} `{FloatOps F}.
(** The float literal [0.1]. *)
Variable lit_0_1 : F.

(** [ERPSoapAdapter.call_legacy_system]; [sample] is the value drawn by
    [random.random()].  The [time.sleep(0.1)] before it has no result. *)
Definition call_legacy_system (sample : F) (legacy_request : string)
  : result response :=
  if f_ltb sample lit_0_1 then Raise ConnectionError
  else Ok (find_sku _inventory legacy_request).

End call.

(** A call raises. *)
Definition raises {A} (r : result A) : Prop := ∃ e, r = Raise e.

(* --------------------------------------------------------------------- *)
(** ** Properties *)
(* --------------------------------------------------------------------- *)

Example legacy_call_below :
  call_legacy_system (1 # 10)%Q (5 # 100)%Q "<sku>SKU-001</sku>"
  = Raise ConnectionError.
Proof. reflexivity. Qed.

Example legacy_call_above :
  call_legacy_system (1 # 10)%Q (1 # 2)%Q "<sku>SKU-002</sku>"
  = Ok (Inventory "SKU-002" "Gadget Plus" 75 "WH-B" "legacy-erp").
Proof. reflexivity. Qed.

(* --------------------------------------------------------------------- *)
(** ** adapter_pattern.py: retry decorator, circuit breaker, [execute] *)
(* --------------------------------------------------------------------- *)

(** [with_retry(max_attempts=extra + 1, ...)] around [func]: [func j] is
    the outcome of attempt number [j].  An exception is swallowed while
    attempts remain, and the last one is re-raised; the sleeps between
    attempts have no result.  ([max_attempts <= 0], where the wrapper
    would raise [None], is not covered.) *)
Fixpoint with_retry {A} (extra : nat) (func : nat → result A) (attempt : nat)
  : result A :=
  match func attempt with
  | Ok a => Ok a
  | Raise e =>
    match extra with
    | O => Raise e
    | S extra' => with_retry extra' func (S attempt)
    end
  end.

(** [class CircuitState(Enum)] *)
Inductive CircuitState := CLOSED | OPEN | HALF_OPEN.

#[global] Instance CircuitState_eq_dec : EqDecision CircuitState.
Proof. solve_decision. Defined.

Section breaker.
Context {F : Type} `{FloatOps F}.
(** Float subtraction, used on clock readings. *)
Variable f_sub : F → F → F.

(** [@dataclass CircuitBreaker] *)
Record CircuitBreaker := mkBreaker {
  failure_threshold : Z;
  recovery_timeout : F;
  half_open_max_calls : Z;
  state : CircuitState;
  failure_count : Z;
  last_failure_time : F;
  half_open_calls : Z
}.

(** [CircuitBreaker.can_execute]; [now] is the reading of [time.time()].
    Returns the answer and the breaker as the call leaves it. *)
Definition can_execute (now : F) (cb : CircuitBreaker)
  : bool * CircuitBreaker :=
  match state cb with
  | CLOSED => (true, cb)
  | OPEN =>
    if f_ltb (recovery_timeout cb) (f_sub now (last_failure_time cb)) then
      (true,
       mkBreaker (failure_threshold cb) (recovery_timeout cb)
                 (half_open_max_calls cb) HALF_OPEN (failure_count cb)
                 (last_failure_time cb) 0)
    else (false, cb)
  | HALF_OPEN =>
    (bool_decide (half_open_calls cb < half_open_max_calls cb), cb)
  end.

(** [CircuitBreaker.record_success] *)
Definition record_success (cb : CircuitBreaker) : CircuitBreaker :=
  match state cb with
  | HALF_OPEN =>
    let calls := half_open_calls cb + 1 in
    if decide ((calls >= half_open_max_calls cb)%Z) then
      mkBreaker (failure_threshold cb) (recovery_timeout cb)
                (half_open_max_calls cb) CLOSED 0
                (last_failure_time cb) calls
    else
      mkBreaker (failure_threshold cb) (recovery_timeout cb)
                (half_open_max_calls cb) HALF_OPEN (failure_count cb)
                (last_failure_time cb) calls
  | _ => cb
  end.

(** [CircuitBreaker.record_failure]; [now] is the reading of
    [time.time()]. *)
Definition record_failure (now : F) (cb : CircuitBreaker) : CircuitBreaker :=
  let count := failure_count cb + 1 in
  let new_state :=
    if decide (state cb = HALF_OPEN) then OPEN
    else if decide ((count >= failure_threshold cb)%Z) then OPEN
    else state cb in
  mkBreaker (failure_threshold cb) (recovery_timeout cb)
            (half_open_max_calls cb) new_state count now
            (half_open_calls cb).

(** [CircuitBreaker()] with the dataclass defaults, given the float
    literal [30.0]. *)
Definition new_breaker (thirty : F) : CircuitBreaker :=
  mkBreaker 5 thirty 3 CLOSED 0 f_zero 0.

(** What the adapter reports to the breaker after a call. *)
Inductive report :=
| Succeeded
| Failed (now : F).

Definition record (cb : CircuitBreaker) (r : report) : CircuitBreaker :=
  match r with
  | Succeeded => record_success cb
  | Failed now => record_failure now cb
  end.

Definition is_failure (r : report) : bool :=
  match r with Failed _ => true | Succeeded => false end.

(** Number of failures among reports. *)
Definition failures (rs : list report) : Z :=
  Z.of_nat (length (filter (λ r, is_failure r = true) rs)).

(** ** [LegacySystemAdapter.execute] *)

(** The dictionaries [execute] can return: the translated response, the
    circuit-breaker refusal, or the failure report with [str(e)]. *)
Inductive outcome (Resp : Type) :=
| Result (r : Resp)
| Unavailable
| CallFailed (e : exn).
Arguments Result {Resp} r.
Arguments Unavailable {Resp}.
Arguments CallFailed {Resp} e.

Section adapter.
(** The three abstract methods of [LegacySystemAdapter]; the legacy call
    is indexed by the attempt number within [_call_with_retry]. *)
Context {Req LReq LResp Resp : Type}.
Variable translate_request : Req → result LReq.
Variable call : nat → LReq → result LResp.
Variable translate_response : LResp → result Resp.

(** [_call_with_retry]: [@with_retry(max_attempts=3, delay=0.5)] *)
Definition _call_with_retry (legacy_request : LReq) : result LResp :=
  with_retry 2 (λ j, call j legacy_request) 0.

(** [execute]; [now_check] and [now_fail] are the clock readings taken by
    [can_execute] and by [record_failure]. *)
Definition execute (now_check now_fail : F) (cb : CircuitBreaker)
    (agent_request : Req) : outcome Resp * CircuitBreaker :=
  let '(allowed, cb1) := can_execute now_check cb in
  if allowed then
    match
      legacy_request ← translate_request agent_request;
      legacy_response ← _call_with_retry legacy_request;
      translate_response legacy_response
    with
    | Ok result => (Result result, record_success cb1)
    | Raise e => (CallFailed e, record_failure now_fail cb1)
    end
  else (Unavailable, cb1).

End adapter.

End breaker.

Arguments CircuitBreaker F : clear implicits.
Arguments report F : clear implicits.
Arguments Result {Resp} r.
Arguments Unavailable {Resp}.
Arguments CallFailed {Resp} e.

(** [ERPSoapAdapter.execute]: the SOAP envelope built by
    [translate_request] is kept abstract; [translate_response] returns its
    argument; [samples j] is the value drawn by [random.random()] in
    attempt [j]. *)
Definition erp_execute {F : Type} `{FloatOps F} {Req : Type}
    (f_sub : F → F → F) (lit_0_1 : F) (envelope : Req → string)
    (samples : nat → F) (now_check now_fail : F)
    (cb : CircuitBreaker F) (agent_request : Req)
  : outcome response * CircuitBreaker F :=
  execute f_sub (λ r, Ok (envelope r))
          (λ j legacy_request, call_legacy_system lit_0_1 (samples j) legacy_request)
          Ok now_check now_fail cb agent_request.

(** *** Properties *)

Lemma with_retry_from {A} (func : nat → result A) : ∀ extra attempt,
  (∀ a, with_retry extra func attempt = Ok a ↔
        ∃ j : nat, (j ≤ extra)%nat ∧ func (attempt + j)%nat = Ok a ∧
                   ∀ i : nat, (i < j)%nat → raises (func (attempt + i)%nat)) ∧
  (∀ e, with_retry extra func attempt = Raise e ↔
        (∀ i : nat, (i < extra)%nat → raises (func (attempt + i)%nat)) ∧
        func (attempt + extra)%nat = Raise e).
Proof.
  induction extra as [|extra IH]; intros attempt; cbn [with_retry].
  - split.
    + intros a. split.
      * intros Hok. exists 0%nat. rewrite Nat.add_0_r.
        destruct (func attempt); [|done]. split; [lia|]. split; [done|].
        intros i Hi. lia.
      * intros (j & Hj & Hok & _). assert (j = 0%nat) as -> by lia.
        rewrite Nat.add_0_r in Hok. by rewrite Hok.
    + intros e. rewrite Nat.add_0_r. split.
      * intros He. split; [intros i Hi; lia|]. by destruct (func attempt).
      * intros [_ He]. by rewrite He.
  - destruct (IH (S attempt)) as [IHok IHraise].
    destruct (func attempt) as [a0|e0] eqn:Hf.
    + split.
      * intros a. split.
        -- intros [= <-]. exists 0%nat. rewrite Nat.add_0_r.
           split; [lia|]. split; [done|]. intros i Hi. lia.
        -- intros (j & Hj & Hok & Hbefore). destruct j as [|j].
           ++ rewrite Nat.add_0_r in Hok. congruence.
           ++ destruct (Hbefore 0%nat) as [e He]; [lia|].
              rewrite Nat.add_0_r in He. congruence.
      * intros e. split; [done|]. intros [Hbefore _].
        destruct (Hbefore 0%nat) as [e' He]; [lia|].
        rewrite Nat.add_0_r in He. congruence.
    + split.
      * intros a. rewrite IHok. split.
        -- intros (j & Hj & Hok & Hbefore). exists (S j). split; [lia|].
           rewrite <- Nat.add_succ_comm. split; [done|].
           intros [|i] Hi; [rewrite Nat.add_0_r; by eexists|].
           rewrite <- Nat.add_succ_comm. apply Hbefore. lia.
        -- intros (j & Hj & Hok & Hbefore). destruct j as [|j].
           { rewrite Nat.add_0_r in Hok. congruence. }
           exists j. split; [lia|]. rewrite Nat.add_succ_comm.
           split; [done|]. intros i Hi. rewrite Nat.add_succ_comm.
           apply Hbefore. lia.
      * intros e. rewrite IHraise. rewrite <- Nat.add_succ_comm. split.
        -- intros [Hbefore He]. split; [|done].
           intros [|i] Hi; [rewrite Nat.add_0_r; by eexists|].
           rewrite <- Nat.add_succ_comm. apply Hbefore. lia.
        -- intros [Hbefore He]. split; [|done]. intros i Hi.
           rewrite Nat.add_succ_comm. apply Hbefore. lia.
Qed.

(** The retry wrapper returns the result of the first attempt that does
    not raise, provided it is among the [extra + 1] attempts; it raises
    exactly when all of them raise, and then re-raises the exception of
    the last attempt. *)
Theorem with_retry_spec {A} (extra : nat) (func : nat → result A) :
  (∀ a, with_retry extra func 0 = Ok a ↔
        ∃ j : nat, (j ≤ extra)%nat ∧ func j = Ok a ∧
                   ∀ i : nat, (i < j)%nat → raises (func i)) ∧
  (∀ e, with_retry extra func 0 = Raise e ↔
        (∀ i : nat, (i < extra)%nat → raises (func i)) ∧
        func extra = Raise e).
Proof. exact (with_retry_from func extra 0%nat). Qed.

Section breaker_facts.
Context {F : Type} `{FloatOps F}.
Variable f_sub : F → F → F.

Lemma record_keeps_settings (cb : CircuitBreaker F) r :
  failure_threshold (record cb r) = failure_threshold cb ∧
  half_open_max_calls (record cb r) = half_open_max_calls cb.
Proof.
  destruct r; cbn; [|done]. unfold record_success.
  destruct (state cb); [done|done|]. by case_decide.
Qed.

(** Starting from a closed breaker with no failure counted and a
    threshold of at least 1, and as long as only outcomes are recorded,
    [failure_count] is the number of failures recorded so far, successes
    never reset it, and the breaker is open exactly when that number has
    reached the threshold. *)
Theorem breaker_counts_failures (cb : CircuitBreaker F)
    (reports : list (report F)) :
  state cb = CLOSED → failure_count cb = 0 → 1 ≤ failure_threshold cb →
  let cb' := fold_left record reports cb in
  failure_count cb' = failures reports ∧
  state cb' = (if decide (failure_threshold cb ≤ failures reports)
               then OPEN else CLOSED).
Proof.
  intros Hst Hcount Hthr. cbn zeta.
  assert (Hinv : failure_threshold (fold_left record reports cb)
                 = failure_threshold cb ∧
                 failure_count (fold_left record reports cb)
                 = failures reports ∧
                 state (fold_left record reports cb)
                 = (if decide (failure_threshold cb ≤ failures reports)
                    then OPEN else CLOSED)).
  { induction reports as [|r reports IH] using rev_ind.
    - cbn. rewrite Hst, Hcount. unfold failures. cbn.
      rewrite decide_False by lia. done.
    - rewrite fold_left_app. cbn [fold_left].
      destruct IH as (IHt & IHc & IHs).
      set (cb1 := fold_left record reports cb) in *.
      unfold failures in *. rewrite filter_app, length_app, filter_cons, filter_nil.
      destruct r as [|now]; cbn [record is_failure].
      + rewrite decide_False by done. cbn [length].
        rewrite Nat.add_0_r. unfold record_success.
        rewrite IHs. case_decide; done.
      + rewrite decide_True by done. cbn [length].
        unfold record_failure. cbn [failure_threshold failure_count state].
        rewrite IHt, IHc, IHs. split; [done|]. split; [lia|].
        rewrite decide_False by (case_decide; done).
        repeat case_decide; try done; lia. }
  by destruct Hinv as (_ & ? & ?).
Qed.

(** A half-open breaker closes, and forgets the counted failures, with
    the success that brings [half_open_calls] to [half_open_max_calls];
    until then it stays half-open; and one failure reopens it at once. *)
Theorem breaker_half_open (cb : CircuitBreaker F) (now : F) (n : nat) :
  state cb = HALF_OPEN →
  let cb' := Nat.iter n record_success cb in
  (half_open_calls cb + Z.of_nat n < half_open_max_calls cb →
     state cb' = HALF_OPEN ∧
     half_open_calls cb' = half_open_calls cb + Z.of_nat n ∧
     failure_count cb' = failure_count cb) ∧
  (0 < Z.of_nat n →
   half_open_calls cb + Z.of_nat n = half_open_max_calls cb →
     state cb' = CLOSED ∧ failure_count cb' = 0) ∧
  state (record_failure now cb) = OPEN.
Proof.
  intros Hst. cbn zeta.
  assert (Hstay : ∀ m : nat,
            half_open_calls cb + Z.of_nat m < half_open_max_calls cb →
            state (Nat.iter m record_success cb) = HALF_OPEN ∧
            half_open_calls (Nat.iter m record_success cb)
            = half_open_calls cb + Z.of_nat m ∧
            failure_count (Nat.iter m record_success cb) = failure_count cb ∧
            half_open_max_calls (Nat.iter m record_success cb)
            = half_open_max_calls cb).
  { induction m as [|m IH]; intros Hm.
    - cbn. rewrite Z.add_0_r. done.
    - destruct IH as (IHs & IHc & IHf & IHm); [lia|].
      rewrite Nat.iter_succ. set (cb1 := Nat.iter m record_success cb) in *.
      unfold record_success. rewrite IHs. cbn zeta.
      rewrite decide_False by lia. cbn. split; [done|]. split; [lia|done]. }
  split; [|split].
  - intros Hn. destruct (Hstay n Hn) as (? & ? & ? & _). done.
  - intros Hpos Hn. destruct n as [|n]; [lia|].
    destruct (Hstay n) as (IHs & IHc & IHf & IHm); [lia|].
    rewrite Nat.iter_succ. set (cb1 := Nat.iter n record_success cb) in *.
    unfold record_success. rewrite IHs. cbn zeta.
    rewrite decide_True by lia. done.
  - unfold record_failure. cbn. by rewrite decide_True.
Qed.

(** The ERP adapter behind a closed breaker: [execute] reports the failed
    call exactly when all three samples are below 0.1, and the three
    failed attempts then count as one failure; otherwise it returns the
    inventory answer for the envelope and leaves the breaker as it is. *)
Theorem erp_execute_closed {Req : Type} (lit_0_1 : F)
    (envelope : Req → string) (samples : nat → F) (now_check now_fail : F)
    (cb : CircuitBreaker F) (agent_request : Req) :
  state cb = CLOSED →
  let all_below := ∀ j : nat, (j < 3)%nat → f_ltb (samples j) lit_0_1 = true in
  let out := erp_execute f_sub lit_0_1 envelope samples now_check now_fail
                         cb agent_request in
  (all_below →
     out.1 = CallFailed ConnectionError ∧
     failure_count out.2 = failure_count cb + 1 ∧
     (state out.2 = OPEN ↔ (failure_count cb + 1 >= failure_threshold cb)%Z)) ∧
  (¬ all_below →
     out = (Result (find_sku _inventory (envelope agent_request)), cb)).
Proof.
  intros Hst. cbn zeta. unfold erp_execute, execute, can_execute.
  rewrite Hst. cbn [mbind result_bind]. unfold _call_with_retry.
  set (func := λ j : nat,
         call_legacy_system lit_0_1 (samples j) (envelope agent_request)).
  assert (Hfunc : ∀ j, func j = if f_ltb (samples j) lit_0_1
                                then Raise ConnectionError
                                else Ok (find_sku _inventory
                                           (envelope agent_request)))
    by done.
  split.
  - intros Hall.
    assert (Hr : with_retry 2 func 0 = Raise ConnectionError).
    { apply with_retry_spec. split.
      - intros i Hi. rewrite Hfunc, Hall by lia. by eexists.
      - by rewrite Hfunc, Hall by lia. }
    rewrite Hr. cbn [mbind result_bind fst snd].
    unfold record_failure. cbn. rewrite Hst.
    split; [done|]. split; [done|].
    rewrite decide_False by done. case_decide; split; try done; lia.
  - intros Hnot.
    destruct (with_retry 2 func 0) as [a|e] eqn:Hr.
    + apply with_retry_spec in Hr as (j & _ & Hok & _).
      rewrite Hfunc in Hok. destruct (f_ltb (samples j) lit_0_1); [done|].
      inversion Hok; subst a. cbn [mbind result_bind].
      unfold record_success. by rewrite Hst.
    + exfalso. apply Hnot. intros j Hj.
      apply with_retry_spec in Hr as [Hbefore Hlast].
      destruct (decide (j = 2%nat)) as [->|Hne].
      * rewrite Hfunc in Hlast. by destruct (f_ltb (samples 2%nat) lit_0_1).
      * destruct (Hbefore j) as [e' He']; [lia|]. rewrite Hfunc in He'.
        by destruct (f_ltb (samples j) lit_0_1).
Qed.

End breaker_facts.

Lemma breaker_counts_failures_witness :
  1 ≤ 5 ∧
  state (fold_left (record (F := Q))
           [Failed 1%Q; Succeeded; Failed 2%Q]
           (new_breaker (30 # 1)%Q)) = CLOSED.
Proof.
  split; [lia|].
  exact (proj2 (breaker_counts_failures (new_breaker (30 # 1)%Q)
                  [Failed 1%Q; Succeeded; Failed 2%Q]
                  eq_refl eq_refl ltac:(cbn; lia))).
Defined.

Lemma breaker_half_open_witness :
  state (Nat.iter 3 record_success
           (mkBreaker 5 (30 # 1)%Q 3 HALF_OPEN 5 0%Q 0)) = CLOSED.
Proof.
  exact (proj1 (proj1 (proj2 (breaker_half_open
           (mkBreaker 5 (30 # 1)%Q 3 HALF_OPEN 5 0%Q 0) 0%Q 3 eq_refl))
           ltac:(cbn; lia) eq_refl)).
Defined.

Lemma erp_execute_closed_witness :
  (erp_execute Qminus (1 # 10)%Q (λ sku : string, sku)
               (λ _, (5 # 100)%Q) 0%Q 1%Q (new_breaker (30 # 1)%Q) "SKU-001").1
  = CallFailed ConnectionError.
Proof.
  exact (proj1 (proj1 (erp_execute_closed Qminus (1 # 10)%Q
           (λ sku : string, sku) (λ _, (5 # 100)%Q) 0%Q 1%Q
           (new_breaker (30 # 1)%Q) "SKU-001" eq_refl)
           (λ j _, eq_refl))).
Defined.

End Simulated.

(* ===================================================================== *)
(** * 01-state-management/basic_fsm.py *)
(* ===================================================================== *)

Module BasicFsm.
Import Py.

(** [class State(Enum)] *)
Inductive State :=
| RECEIVED | PROCESSING | VALIDATED | COMPLETED | FAILED | RETRY.

#[global] Instance State_eq_dec : EqDecision State.
Proof. solve_decision. Defined.

(** [State.value] *)
Definition value (s : State) : string :=
  match s with
  | RECEIVED => "received"
  | PROCESSING => "processing"
  | VALIDATED => "validated"
  | COMPLETED => "completed"
  | FAILED => "failed"
  | RETRY => "retry"
  end.

(** [@dataclass WorkflowContext]; [content] is declared optional and is
    always set by [run_workflow]. *)
Record WorkflowContext := mkContext {
  document_id : string;
  content : string;
  validation_result : option bool;
  error_message : option string;
  retry_count : Z;
  max_retries : Z
}.

(** [StateMachine.TRANSITIONS] *)
Definition TRANSITIONS (s : State) : list State :=
  match s with
  | RECEIVED => [PROCESSING]
  | PROCESSING => [VALIDATED; FAILED]
  | VALIDATED => [COMPLETED; FAILED]
  | FAILED => [RETRY]
  | RETRY => [PROCESSING]
  | COMPLETED => []
  end.

(** [class StateMachine].  The context object is shared with
    [run_workflow], which updates it; it is kept in the machine.  The
    entries of [history] are kept without their time stamp. *)
Record StateMachine := mkMachine {
  context : WorkflowContext;
  state : State;
  history : list (State * State)
}.

(** [StateMachine(context)] *)
Definition new_machine (ctx : WorkflowContext) : StateMachine :=
  mkMachine ctx RECEIVED [].

Definition can_transition (fsm : StateMachine) (to_state : State) : bool :=
  bool_decide (to_state ∈ TRANSITIONS (state fsm)).

(** [transition]: the value returned and the machine afterwards. *)
Definition transition (fsm : StateMachine) (to_state : State)
  : bool * StateMachine :=
  if can_transition fsm to_state then
    (true, mkMachine (context fsm) to_state
                     (history fsm ++ [(state fsm, to_state)]))
  else (false, fsm).

Definition is_terminal (fsm : StateMachine) : bool :=
  bool_decide (state fsm = COMPLETED) ||
  (bool_decide (state fsm = FAILED) &&
   bool_decide (max_retries (context fsm) ≤ retry_count (context fsm))).

(** The result of a loop that is run with fuel. *)
Inductive outcome (A : Type) :=
| OutOfFuel
| Returned (a : A).
Arguments OutOfFuel {A}.
Arguments Returned {A} a.

Section workflow.
(** [str.lower] *)
Variable lower : string → string.

Definition process_document (content : string) : bool * option string :=
  if Simulated.contains "error" (lower content)
  then (false, Some "Processing failed: invalid content")
  else (true, None).

Definition validate_document (content : string) : bool :=
  bool_decide (10 < String.length content)%nat.

(** One round of the [while] loop of [run_workflow]: the machine
    afterwards, and whether the round ended in [break]. *)
Definition workflow_round (fsm : StateMachine) : StateMachine * bool :=
  let ctx := context fsm in
  match state fsm with
  | RECEIVED => (snd (transition fsm PROCESSING), false)
  | PROCESSING =>
    let '(success, error) := process_document (content ctx) in
    if success then
      let ctx' :=
        mkContext (document_id ctx) (content ctx)
                  (Some (validate_document (content ctx)))
                  (error_message ctx) (retry_count ctx) (max_retries ctx) in
      (snd (transition (mkMachine ctx' (state fsm) (history fsm)) VALIDATED),
       false)
    else
      let ctx' :=
        mkContext (document_id ctx) (content ctx) (validation_result ctx)
                  error (retry_count ctx) (max_retries ctx) in
      (snd (transition (mkMachine ctx' (state fsm) (history fsm)) FAILED),
       false)
  | VALIDATED =>
    if default false (validation_result ctx) then
      (snd (transition fsm COMPLETED), false)
    else
      let ctx' :=
        mkContext (document_id ctx) (content ctx) (validation_result ctx)
                  (Some "Validation failed") (retry_count ctx)
                  (max_retries ctx) in
      (snd (transition (mkMachine ctx' (state fsm) (history fsm)) FAILED),
       false)
  | FAILED =>
    if bool_decide (retry_count ctx < max_retries ctx) then
      let ctx' :=
        mkContext (document_id ctx) (content ctx) (validation_result ctx)
                  (error_message ctx) (retry_count ctx + 1)
                  (max_retries ctx) in
      (snd (transition (mkMachine ctx' (state fsm) (history fsm)) RETRY),
       false)
    else (fsm, true)
  | RETRY => (snd (transition fsm PROCESSING), false)
  | COMPLETED => (fsm, false)
  end.

(** [while not fsm.is_terminal(): ...] *)
Fixpoint workflow_loop (fuel : nat) (fsm : StateMachine)
  : outcome StateMachine :=
  match fuel with
  | O => OutOfFuel
  | S fuel' =>
    if is_terminal fsm then Returned fsm
    else
      let '(fsm', stop) := workflow_round fsm in
      if stop then Returned fsm' else workflow_loop fuel' fsm'
  end.

(** Rounds that always suffice with [max_retries = 3]: the first
    transition, four rounds for each of the four attempts, and the final
    test. *)
Definition workflow_fuel : nat := 18.

(** [run_workflow(document_id, content)]: the value of the final state. *)
Definition run_workflow (document_id content : string) : outcome string :=
  match workflow_loop workflow_fuel
          (new_machine (mkContext document_id content None None 0 3)) with
  | OutOfFuel => OutOfFuel
  | Returned fsm => Returned (value (state fsm))
  end.

(** The workflow always ends; it ends in the failed state exactly when
    the lowercased content contains "error" or the content has at most
    10 characters, and in the completed state otherwise. *)
Lemma fsm_workflow_outcome (document_id content : string) :
  run_workflow document_id content
  = Returned (if Simulated.contains "error" (lower content)
                 || negb (validate_document content)
              then "failed" else "completed").
Proof.
  unfold run_workflow, workflow_fuel, new_machine.
  destruct (Simulated.contains "error" (lower content)) eqn:Herror;
    destruct (validate_document content) eqn:Hvalid;
    repeat (cbv -[Simulated.contains validate_document];
            rewrite ?Herror, ?Hvalid);
    reflexivity.
Qed.

End workflow.

End BasicFsm.

(* ===================================================================== *)
(** * 01-state-management/checkpointing.py *)
(* ===================================================================== *)

Module Checkpointing.
Import Py.

(** The dictionaries [simulate_step] returns. *)
Inductive step_output :=
| Extracted | Transformed | Validated | Enriched | Completed | NoOutput.

(** [simulate_step(step, data, fail_at)]; [data] is not read. *)
Definition simulate_step {D} (step : string) (data : D)
    (fail_at : option string) : result step_output :=
  if decide (Some step = fail_at) then Raise RuntimeError
  else if decide (step = "extract") then Ok Extracted
  else if decide (step = "transform") then Ok Transformed
  else if decide (step = "validate") then Ok Validated
  else if decide (step = "enrich") then Ok Enriched
  else if decide (step = "complete") then Ok Completed
  else Ok NoOutput.

(** [CheckpointedWorkflow.STEPS] *)
Definition STEPS : list string :=
  ["extract"; "transform"; "validate"; "enrich"; "complete"].

(** How [run_workflow] ends: at the [return] of the [except] branch, or
    after the loop. *)
Inductive ending := Crashed | Finished.

(** The result of a loop that is run with fuel. *)
Inductive outcome (A : Type) :=
| OutOfFuel
| Returned (a : A).
Arguments OutOfFuel {A}.
Arguments Returned {A} a.

Section workflow.
(** The workflow data, a dictionary of JSON values: [update d out] is
    the dictionary after [d.update(out)], and [dumps] and [loads] are
    [json.dumps] and [json.loads] on such dictionaries. *)
Context {D : Type}.
Variable update : D → step_output → D.
Variable dumps : D → string.
Variable loads : string → D.

(** [@dataclass WorkflowState], without the two time stamps, which are
    written and never read. *)
Record WorkflowState := mkWorkflowState {
  workflow_id : string;
  current_step : string;
  data : D;
  completed : bool
}.

(** A row of the table [checkpoints], without the key and the time
    stamps: [current_step], [data] as JSON text, [completed]. *)
Record row := mkRow {
  row_step : string;
  row_data : string;
  row_completed : bool
}.

(** The table [checkpoints], with primary key [workflow_id]. *)
Definition CheckpointStore := gmap string row.

(** [INSERT OR REPLACE INTO checkpoints ...] *)
Definition save (state : WorkflowState) (store : CheckpointStore)
  : CheckpointStore :=
  <[workflow_id state :=
      mkRow (current_step state) (dumps (data state)) (completed state)]>
    store.

(** [SELECT * FROM checkpoints WHERE workflow_id = ?] *)
Definition load (store : CheckpointStore) (id : string)
  : option WorkflowState :=
  (λ r, mkWorkflowState id (row_step r) (loads (row_data r))
                        (row_completed r)) <$> store !! id.

(** [DELETE FROM checkpoints WHERE workflow_id = ?] *)
Definition delete_checkpoint (id : string) (store : CheckpointStore)
  : CheckpointStore :=
  delete id store.

(** [self.STEPS.index(step) if step in self.STEPS else 0] *)
Definition _get_step_index (step : string) : nat :=
  match list_find (λ s, s = step) STEPS with
  | Some (i, _) => i
  | None => 0%nat
  end.

(** [start_or_resume]: the state of the workflow, and the store. *)
Definition start_or_resume (id : string) (initial_data : D)
    (store : CheckpointStore) : WorkflowState * CheckpointStore :=
  match load store id with
  | Some existing =>
    if completed existing then
      let state := mkWorkflowState id "extract" initial_data false in
      (state, save state store)
    else (existing, store)
  | None =>
    let state := mkWorkflowState id "extract" initial_data false in
    (state, save state store)
  end.

(** [advance(step_result)] *)
Definition advance (state : WorkflowState) (step_result : step_output)
    (store : CheckpointStore) : WorkflowState * CheckpointStore :=
  let current_index := _get_step_index (current_step state) in
  let data' := update (data state) step_result in
  let state' :=
    if decide (Z.of_nat current_index < Z.of_nat (length STEPS) - 1) then
      mkWorkflowState (workflow_id state)
                      (default "" (STEPS !! S current_index))
                      data' (completed state)
    else
      mkWorkflowState (workflow_id state) (current_step state) data' true in
  (state', save state' store).

(** [while not workflow.is_complete(): try: ... except RuntimeError:
    return]; [simulate_step] raises nothing but [RuntimeError]. *)
Fixpoint workflow_loop (fuel : nat) (fail_at : option string)
    (state : WorkflowState) (store : CheckpointStore)
  : outcome (ending * CheckpointStore) :=
  match fuel with
  | O => OutOfFuel
  | S fuel' =>
    if completed state then Returned (Finished, store)
    else
      match simulate_step (current_step state) (data state) fail_at with
      | Ok result =>
        let '(state', store') := advance state result store in
        workflow_loop fuel' fail_at state' store'
      | Raise _ => Returned (Crashed, store)
      end
  end.

(** One round for each step, one for a resumed step that is none of
    [STEPS], and the final test. *)
Definition workflow_fuel : nat := 7.

(** [run_workflow(workflow_id, data, fail_at)] on a store: how it ends,
    and the store afterwards. *)
Definition run_workflow (id : string) (initial_data : D)
    (fail_at : option string) (store : CheckpointStore)
  : outcome (ending * CheckpointStore) :=
  let '(state, store1) := start_or_resume id initial_data store in
  match workflow_loop workflow_fuel fail_at state store1 with
  | Returned (Finished, store2) =>
    Returned (Finished, delete_checkpoint id store2)
  | r => r
  end.

(** The step the workflow starts from: the step of an unfinished
    checkpoint, or the first step. *)
Definition start_step (id : string) (store : CheckpointStore) : string :=
  match store !! id with
  | Some r => if row_completed r then "extract" else row_step r
  | None => "extract"
  end.

(** The steps a run executes when nothing fails, from [step] on. *)
Definition steps_from (step : string) : list string :=
  step :: drop (S (_get_step_index step)) STEPS.

(** The store holds a checkpoint of the state: same step, same
    [completed]. *)
Definition checkpointed (state : WorkflowState) (store : CheckpointStore)
  : Prop :=
  ∃ r, store !! workflow_id state = Some r ∧
       row_step r = current_step state ∧
       row_completed r = completed state.

Lemma simulate_step_outcome (step : string) (d : D) (fail_at : option string) :
  (fail_at = Some step ∧ simulate_step step d fail_at = Raise RuntimeError) ∨
  (fail_at ≠ Some step ∧ ∃ out, simulate_step step d fail_at = Ok out).
Proof.
  unfold simulate_step. destruct (decide (Some step = fail_at)) as [<-|Hne].
  - by left.
  - right. split; [congruence|]. repeat case_decide; by eexists.
Qed.

Lemma get_step_index_bound (step : string) :
  (_get_step_index step < length STEPS)%nat.
Proof.
  unfold _get_step_index.
  destruct (list_find (λ s, s = step) STEPS) as [[i s]|] eqn:Hfind;
    [|cbn; lia].
  apply list_find_Some in Hfind as (Hi & _). by apply lookup_lt_Some in Hi.
Qed.

(** After a step that is not the last, the steps still to run are those
    of the next step. *)
Lemma steps_from_next (step : string) :
  (_get_step_index step < 4)%nat →
  ∃ next, STEPS !! S (_get_step_index step) = Some next ∧
          steps_from step = step :: steps_from next.
Proof.
  intros Hi. unfold steps_from.
  destruct (_get_step_index step) as [|[|[|[|]]]]; [| | | |lia];
    eexists; (split; [reflexivity|]); reflexivity.
Qed.

Lemma steps_from_last (step : string) :
  ¬ (_get_step_index step < 4)%nat → steps_from step = [step].
Proof.
  intros Hi. pose proof (get_step_index_bound step) as Hb. cbn in Hb.
  unfold steps_from.
  assert (_get_step_index step = 4%nat) as -> by lia. reflexivity.
Qed.

Lemma workflow_loop_spec (fail_at : option string) : ∀ fuel state store,
  completed state = false →
  (length (steps_from (current_step state)) < fuel)%nat →
  checkpointed state store →
  ∃ e store',
    workflow_loop fuel fail_at state store = Returned (e, store') ∧
    (e = Crashed ↔
       ∃ s, fail_at = Some s ∧ s ∈ steps_from (current_step state)) ∧
    (e = Crashed →
       ∃ s r, fail_at = Some s ∧ store' !! workflow_id state = Some r ∧
              row_step r = s ∧ row_completed r = false) ∧
    (e = Finished →
       ∃ r, store' !! workflow_id state = Some r ∧ row_completed r = true).
Proof.
  induction fuel as [|fuel IH]; intros state store Hc Hfuel Hsaved; [lia|].
  cbn [workflow_loop]. rewrite Hc.
  destruct (simulate_step_outcome (current_step state) (data state) fail_at)
    as [[Hfail ->]|[Hfail [out ->]]].
  - (* the step is the one that fails *)
    exists Crashed, store. split; [done|]. split; [|split; [|done]].
    + split; [|done]. intros _. exists (current_step state).
      split; [done|]. apply list_elem_of_here.
    + intros _. destruct Hsaved as (r & Hr & Hstep & Hcomp).
      exists (current_step state), r. rewrite Hcomp, Hc. done.
  - unfold advance.
    destruct (decide (Z.of_nat (_get_step_index (current_step state))
                      < Z.of_nat (length STEPS) - 1)) as [Hidx|Hidx].
    + (* a further step follows *)
      destruct (steps_from_next (current_step state)) as (next & Hnext & Hsteps);
        [cbn in Hidx; lia|].
      rewrite Hnext. change (default "" (Some next)) with next.
      set (state' := mkWorkflowState (workflow_id state) next
                                     (update (data state) out)
                                     (completed state)).
      destruct (IH state' (save state' store)) as (e & store' & -> & He & Hcr & Hfin).
      * done.
      * unfold state'. cbn [current_step]. rewrite Hsteps in Hfuel.
        cbn [length] in Hfuel. lia.
      * unfold checkpointed, save, state'.
        cbn [workflow_id current_step completed]. eexists.
        split; [apply lookup_insert_eq|done].
      * exists e, store'. split; [done|]. split; [|done].
        rewrite He, Hsteps. unfold state'. cbn [current_step]. split.
        -- intros (s & Hs & Hin). exists s. split; [done|].
           by apply list_elem_of_further.
        -- intros (s & Hs & [->|Hin]%elem_of_cons); [congruence|].
           by exists s.
    + (* the last step: the workflow is completed *)
      rewrite steps_from_last by (cbn in Hidx; lia).
      destruct fuel as [|fuel]; [rewrite steps_from_last in Hfuel
                                   by (cbn in Hidx; lia); cbn in Hfuel; lia|].
      cbn [workflow_loop completed]. eexists Finished, _.
      split; [done|]. split; [|split; [done|]].
      * split; [done|]. intros (s & Hs & ->%list_elem_of_singleton).
        congruence.
      * intros _. unfold save. cbn [workflow_id current_step completed].
        eexists. split; [apply lookup_insert_eq|done].
Qed.

(** [run_workflow] always ends.  It crashes exactly when [fail_at] is
    one of the steps it has to run, which start at the step of an
    unfinished checkpoint if the store holds one; the checkpoint it
    leaves is then at the failing step, so that the next run resumes
    there.  A run that does not crash deletes the checkpoint. *)
Lemma checkpointed_workflow_outcome (id : string) (initial_data : D)
    (fail_at : option string) (store : CheckpointStore) :
  ∃ e store',
    run_workflow id initial_data fail_at store = Returned (e, store') ∧
    (e = Crashed ↔
       ∃ s, fail_at = Some s ∧ s ∈ steps_from (start_step id store)) ∧
    (e = Crashed →
       ∃ s, fail_at = Some s ∧ start_step id store' = s) ∧
    (e = Finished → store' !! id = None).
Proof.
  unfold run_workflow.
  assert (Hstart : ∃ state store1,
            start_or_resume id initial_data store = (state, store1) ∧
            workflow_id state = id ∧
            current_step state = start_step id store ∧
            completed state = false ∧ checkpointed state store1).
  { unfold start_or_resume, load, start_step, checkpointed.
    destruct (store !! id) as [r|] eqn:Hr; cbn [fmap option_fmap option_map completed].
    - destruct (row_completed r) eqn:Hcomp.
      + eexists _, _. split; [reflexivity|].
        cbn [workflow_id current_step completed].
        split; [done|]. split; [done|]. split; [done|].
        unfold save. cbn [workflow_id current_step completed].
        eexists. split; [apply lookup_insert_eq|done].
      + eexists _, _. split; [reflexivity|].
        cbn [workflow_id current_step completed].
        split; [done|]. split; [done|]. split; [done|].
        exists r. by rewrite Hcomp.
    - eexists _, _. split; [reflexivity|].
      cbn [workflow_id current_step completed].
      split; [done|]. split; [done|]. split; [done|].
      unfold save. cbn [workflow_id current_step completed].
      eexists. split; [apply lookup_insert_eq|done]. }
  destruct Hstart as (state & store1 & -> & Hid & Hstep & Hc & Hsaved).
  destruct (workflow_loop_spec fail_at workflow_fuel state store1 Hc)
    as (e & store2 & -> & He & Hcr & Hfin); [|done|].
  { pose proof (get_step_index_bound (current_step state)) as Hb.
    unfold steps_from, workflow_fuel. cbn [length].
    rewrite length_drop. cbn in *. lia. }
  rewrite Hstep, Hid in *. destruct e.
  - exists Crashed, store2. split; [done|]. split; [done|].
    split; [|done]. intros _.
    destruct (Hcr eq_refl) as (s & r & Hs & Hr & Hrs & Hrc).
    exists s. split; [done|]. unfold start_step. by rewrite Hr, Hrc.
  - exists Finished, (delete_checkpoint id store2). split; [done|].
    split; [|split; [done|]].
    + rewrite <- He. done.
    + intros _. unfold delete_checkpoint. apply lookup_delete_eq.
Qed.

End workflow.

End Checkpointing.

(* ===================================================================== *)
(** * 09-agentic-security/guardrails.py *)
(* ===================================================================== *)

Module Guardrails.
Import Py.

(** [class ThreatType(Enum)] *)
Inductive ThreatType :=
| PROMPT_INJECTION | JAILBREAK | PII_EXPOSURE | POLICY_VIOLATION
| TOXIC_CONTENT | DATA_EXFILTRATION.

#[global] Instance ThreatType_eq_dec : EqDecision ThreatType.
Proof. solve_decision. Defined.

Definition threat_value (t : ThreatType) : string :=
  match t with
  | PROMPT_INJECTION => "prompt_injection"
  | JAILBREAK => "jailbreak"
  | PII_EXPOSURE => "pii_exposure"
  | POLICY_VIOLATION => "policy_violation"
  | TOXIC_CONTENT => "toxic_content"
  | DATA_EXFILTRATION => "data_exfiltration"
  end.

(** [class GuardrailAction(Enum)] *)
Inductive GuardrailAction := ALLOW | BLOCK | SANITIZE | FLAG | ESCALATE.

#[global] Instance GuardrailAction_eq_dec : EqDecision GuardrailAction.
Proof. solve_decision. Defined.

Definition action_value (a : GuardrailAction) : string :=
  match a with
  | ALLOW => "allow"
  | BLOCK => "block"
  | SANITIZE => "sanitize"
  | FLAG => "flag"
  | ESCALATE => "escalate"
  end.

(** [@dataclass GuardrailResult], without [confidence], which is written
    and never read. *)
Record GuardrailResult := mkGuardrailResult {
  passed : bool;
  action : GuardrailAction;
  threats_detected : list ThreatType;
  message : string;
  modified_content : option string
}.

(** [InputGuardrail._injection_patterns] *)
Definition _injection_patterns : list string :=
  [ "ignore\s+(all\s+)?previous\s+instructions";
    "ignore\s+(all\s+)?above";
    "disregard\s+(all\s+)?previous";
    "you\s+are\s+now\s+a";
    "new\s+instruction[s]?:";
    "forget\s+(all\s+)?your\s+(previous\s+)?instructions";
    "system\s+prompt";
    "admin\s+mode" ].

Definition jailbreak_keywords : list string :=
  ["dan mode"; "developer mode"; "unrestricted mode"; "no limits"].

(** The dictionary [process_input] returns. *)
Record input_decision := mkInputDecision {
  allowed : bool;
  decision_action : string;
  threats : list string;
  decision_message : string
}.

Section check.
(** [str.lower], and whether [re.search(pattern, text)] finds a match. *)
Variable lower : string → string.
Variable re_search : string → string → bool.

(** [InputGuardrail.check(content, source)] *)
Definition check (content source : string) : GuardrailResult :=
  let content_lower := lower content in
  let threats :=
    if existsb (λ pattern, re_search pattern content_lower)
               _injection_patterns
    then [PROMPT_INJECTION] else [] in
  let threats :=
    threats ++
    (if existsb (λ kw, Simulated.contains kw content_lower) jailbreak_keywords
     then [JAILBREAK] else []) in
  match threats with
  | [] => mkGuardrailResult true ALLOW [] "" None
  | _ :: _ =>
    if bool_decide (source = "document")
       && bool_decide (PROMPT_INJECTION ∈ threats)
    then mkGuardrailResult false BLOCK threats
           "Potential indirect prompt injection detected in document" None
    else mkGuardrailResult false FLAG threats
           "Potential prompt injection detected" None
  end.

(** [DefenseInDepthPipeline.process_input(content, source)] *)
Definition process_input (content source : string) : input_decision :=
  let result := check content source in
  mkInputDecision
    (passed result || bool_decide (action result = FLAG))
    (action_value (action result))
    (map threat_value (threats_detected result))
    (message result).

(** Some injection pattern is found in the lowercased content. *)
Definition injection_found (content : string) : Prop :=
  ∃ pattern, pattern ∈ _injection_patterns ∧
             re_search pattern (lower content) = true.

(** An input is refused exactly when it comes from a document and an
    injection pattern is found in it; a jailbreak keyword alone, or an
    injection pattern in a user message, is flagged and let through. *)
Lemma process_input_refuses (content source : string) :
  allowed (process_input content source) = false ↔
  source = "document" ∧ injection_found content.
Proof.
  unfold process_input, check, injection_found.
  destruct (existsb (λ pattern, re_search pattern (lower content))
                    _injection_patterns) eqn:Hinj.
  - apply existsb_exists in Hinj as (pattern & Hin%list_elem_of_In & Hp).
    cbn [app]. rewrite (bool_decide_eq_true_2 (PROMPT_INJECTION ∈ _))
      by apply list_elem_of_here.
    rewrite andb_true_r. destruct (decide (source = "document")) as [->|Hne].
    + rewrite bool_decide_eq_true_2 by done. cbn. split; [|done].
      intros _. split; [done|]. by exists pattern.
    + rewrite bool_decide_eq_false_2 by done. cbn. split; [done|].
      by intros [? _].
  - assert (Hnone : ¬ ∃ pattern, pattern ∈ _injection_patterns ∧
                                 re_search pattern (lower content) = true).
    { intros (pattern & Hin%list_elem_of_In & Hp).
      assert (existsb (λ pattern, re_search pattern (lower content))
                      _injection_patterns = true)
        by (apply existsb_exists; by exists pattern).
      congruence. }
    cbn [app].
    destruct (existsb (λ kw, Simulated.contains kw (lower content))
                      jailbreak_keywords).
    + rewrite (bool_decide_eq_false_2 (PROMPT_INJECTION ∈ [JAILBREAK])).
      * rewrite andb_false_r. cbn. split; [done|]. by intros [_ ?].
      * intros Hin%list_elem_of_singleton. done.
    + cbn. split; [done|]. by intros [_ ?].
Qed.

End check.

End Guardrails.

(* ===================================================================== *)
(** * Where the simulated failures come from *)
(* ===================================================================== *)

Module SimulatedFailures.
Import Py.

Section programs.
Context {F : Type}.

(** A program that may call [random.random()]: run on the values the
    generator is going to return, in order, and on the number of values
    drawn so far, it gives its result and the number drawn at its end. *)
Definition Sim (A : Type) : Type := (nat → F) → nat → A * nat.

Definition sim_ret {A} (a : A) : Sim A := λ _ n, (a, n).

Definition sim_bind {A B} (m : Sim A) (k : A → Sim B) : Sim B :=
  λ generator n, let '(a, n') := m generator n in k a generator n'.

(** [random.random()] *)
Definition random_random : Sim F := λ generator n, (generator n, S n).

(** The program draws no random value: whatever the generator returns,
    the result is the same and the number of values drawn stays. *)
Definition draws_nothing {A} (m : Sim A) : Prop :=
  ∃ a, ∀ generator n, m generator n = (a, n).

Context `{FloatOps F}.
(** The float literal [0.1]. *)
Variable lit_0_1 : F.

(** [ERPSoapAdapter.call_legacy_system(legacy_request)] *)
Definition call_legacy_system (legacy_request : string)
  : Sim (result Simulated.response) :=
  sim_bind random_random (λ sample,
    sim_ret (Simulated.call_legacy_system lit_0_1 sample legacy_request)).

(** [simulate_step(step, data, fail_at)] of checkpointing.py *)
Definition simulate_step {D} (step : string) (data : D)
    (fail_at : option string) : Sim (result Checkpointing.step_output) :=
  sim_ret (Checkpointing.simulate_step step data fail_at).

(** [run_workflow(workflow_id, data, fail_at)] of checkpointing.py, on a
    store *)
Definition checkpointed_workflow {D} (update : D → Checkpointing.step_output → D)
    (dumps : D → string) (loads : string → D)
    (id : string) (data : D) (fail_at : option string)
    (store : Checkpointing.CheckpointStore)
  : Sim (Checkpointing.outcome
           (Checkpointing.ending * Checkpointing.CheckpointStore)) :=
  sim_ret (Checkpointing.run_workflow update dumps loads id data fail_at store).

(** [run_workflow(document_id, content)] of basic_fsm.py *)
Definition fsm_workflow (lower : string → string)
    (document_id content : string) : Sim (BasicFsm.outcome string) :=
  sim_ret (BasicFsm.run_workflow lower document_id content).

(** [DefenseInDepthPipeline.process_input(content, source)] of
    guardrails.py *)
Definition process_input (lower : string → string)
    (re_search : string → string → bool) (content source : string)
  : Sim Guardrails.input_decision :=
  sim_ret (Guardrails.process_input lower re_search content source).

End programs.

(* --------------------------------------------------------------------- *)
(** ** Properties *)
(* --------------------------------------------------------------------- *)

Lemma sim_ret_draws_nothing {F A} (a : A) : draws_nothing (F := F) (sim_ret a).
Proof. by exists a. Qed.

(** C9, as amended.  Of the four files only the circuit-breaker file
    fails at random: [call_legacy_system] draws one random value and
    raises, and then raises [ConnectionError], exactly when that value is
    below 0.1.  The other three draw no random value, and what they do
    depends on their arguments alone: [simulate_step] of the
    checkpointing file raises, and then raises [RuntimeError], exactly
    when [step] equals [fail_at], and its [run_workflow] crashes exactly
    when [fail_at] is one of the steps it has to run; [run_workflow] of
    the FSM file ends in the failed state exactly when the lowercased
    content contains "error" or the content has at most 10 characters;
    [process_input] of the guardrails file refuses an input exactly when
    it comes from a document and an injection pattern is found in it. *)
Theorem simulated_failures {F : Type} `{FloatOps F} (lit_0_1 : F)
    {D : Type} (update : D → Checkpointing.step_output → D)
    (dumps : D → string) (loads : string → D)
    (lower : string → string) (re_search : string → string → bool) :
  (∀ legacy_request generator n,
     let run := call_legacy_system lit_0_1 legacy_request generator n in
     snd run = S n ∧
     (Simulated.raises (fst run) ↔ f_ltb (generator n) lit_0_1 = true) ∧
     (fst run = Raise ConnectionError ↔
        f_ltb (generator n) lit_0_1 = true)) ∧
  (∀ step (data : D) fail_at,
     draws_nothing (F := F) (simulate_step step data fail_at) ∧
     ∀ generator n,
       let run := simulate_step (F := F) step data fail_at generator n in
       (Simulated.raises (fst run) ↔ fail_at = Some step) ∧
       (fst run = Raise RuntimeError ↔ fail_at = Some step)) ∧
  (∀ id data fail_at store,
     draws_nothing (F := F)
       (checkpointed_workflow update dumps loads id data fail_at store) ∧
     ∀ generator n, ∃ e store',
       fst (checkpointed_workflow (F := F) update dumps loads id data
              fail_at store generator n)
       = Checkpointing.Returned (e, store') ∧
       (e = Checkpointing.Crashed ↔
          ∃ s, fail_at = Some s ∧
               s ∈ Checkpointing.steps_from
                     (Checkpointing.start_step id store))) ∧
  (∀ document_id content,
     draws_nothing (F := F) (fsm_workflow lower document_id content) ∧
     ∀ generator n,
       fst (fsm_workflow (F := F) lower document_id content generator n)
       = BasicFsm.Returned
           (if Simulated.contains "error" (lower content)
               || negb (bool_decide (10 < String.length content)%nat)
            then "failed" else "completed")) ∧
  (∀ content source,
     draws_nothing (F := F) (process_input lower re_search content source) ∧
     ∀ generator n,
       Guardrails.allowed
         (fst (process_input (F := F) lower re_search content source
                 generator n)) = false ↔
       source = "document" ∧
       Guardrails.injection_found lower re_search content).
Proof.
  split; [|split; [|split; [|split]]].
  - intros req generator n. cbn.
    unfold Simulated.call_legacy_system, Simulated.raises.
    split; [done|]. destruct (f_ltb (generator n) lit_0_1).
    + split; [|done]. split; [done|]. intros _. by eexists.
    + split; split; try done. by intros [e He].
  - intros step data fail_at. split; [apply sim_ret_draws_nothing|].
    intros generator n. cbn.
    destruct (Checkpointing.simulate_step_outcome step data fail_at)
      as [[Hfail ->]|[Hfail [out ->]]]; unfold Simulated.raises.
    + split; [|done]. split; [done|]. intros _. by eexists.
    + split; split; try done. by intros [e He].
  - intros id data fail_at store. split; [apply sim_ret_draws_nothing|].
    intros generator n. cbn.
    destruct (Checkpointing.checkpointed_workflow_outcome update dumps loads id data
                fail_at store) as (e & store' & -> & He & _).
    by exists e, store'.
  - intros document_id content. split; [apply sim_ret_draws_nothing|].
    intros generator n. cbn. apply BasicFsm.fsm_workflow_outcome.
  - intros content source. split; [apply sim_ret_draws_nothing|].
    intros generator n. cbn. apply Guardrails.process_input_refuses.
Qed.

(** C9 as stated fails for the checkpointing and the FSM file.  With
    [fail_at] at the step, [simulate_step] raises although every value
    the generator returns is 1/2, not below 0.1; without [fail_at] it
    returns although every value is 1/20; and no call of it raises
    exactly when the value drawn is below 0.1.  Likewise the FSM
    workflow fails on the content "error" and completes on a long
    content, whatever the generator returns. *)
Lemma deterministic_failures :
  (fst (simulate_step "validate" () (Some "validate") (λ _, (1 # 2)%Q) 0%nat)
   = Raise RuntimeError ∧
   f_ltb (1 # 2)%Q (1 # 10)%Q = false) ∧
  (fst (simulate_step "validate" () None (λ _, (1 # 20)%Q) 0%nat)
   = Ok Checkpointing.Validated ∧
   f_ltb (1 # 20)%Q (1 # 10)%Q = true) ∧
  (¬ ∃ step (data : unit) fail_at, ∀ (generator : nat → Q) n,
       Simulated.raises (fst (simulate_step step data fail_at generator n)) ↔
       f_ltb (generator n) (1 # 10)%Q = true) ∧
  (fst (fsm_workflow (λ s, s) "doc-002" "error" (λ _, (1 # 2)%Q) 0%nat)
   = BasicFsm.Returned "failed") ∧
  (fst (fsm_workflow (λ s, s) "doc-001" "a valid document"
          (λ _, (1 # 20)%Q) 0%nat)
   = BasicFsm.Returned "completed").
Proof.
  split; [by split|]. split; [by split|]. split; [|split].
  - intros (step & data & fail_at & Hiff).
    assert (Hlow : Simulated.raises
                     (fst (simulate_step step data fail_at
                             (λ _, (1 # 20)%Q) 0%nat)))
      by (apply Hiff; reflexivity).
    apply (Hiff (λ _, (1 # 2)%Q) 0%nat) in Hlow. discriminate.
  - vm_compute. reflexivity.
  - vm_compute. reflexivity.
Qed.

Example legacy_call_draws :
  call_legacy_system (1 # 10)%Q "<sku>SKU-001</sku>" (λ _, (1 # 20)%Q) 0%nat
  = (Raise ConnectionError, 1%nat).
Proof. reflexivity. Qed.

End SimulatedFailures.
